(** * Semantic validation and repository extraction for the issue-query language

    A shallow embedding of [src/parser/validation.ts] and [src/utils.ts].
    The syntax tree, the symbol table and the tree walker live in modules of
    the repository that are not part of the verified sources ([nodes.ts],
    [symbols.ts], [scanner.ts]); they are modelled from the specification and
    marked as such. *)

From Stdlib Require Import ZArith Ascii String.
From stdpp Require Import base option list gmap strings.

Local Open Scope string_scope.
Local Open Scope list_scope.
Local Open Scope nat_scope.

(** ** Syntax tree *)

(** Modelled from the spec: [scanner.ts] is absent.  The validator only ever
    compares a token kind with [TokenType.OR]; every other kind is kept by
    name. *)
Inductive TokenType : Type :=
| OR
| Token (kind : string).

Global Instance TokenType_eq_dec : EqDecision TokenType.
Proof. solve_decision. Defined.

(** Modelled from the spec: the discriminant [_type] of [nodes.ts] (spec,
    section 3: the kinds of the tagged union). *)
Module NodeType.
Inductive t : Type :=
| Any | Compare | Date | Literal | Missing | Number | QualifiedValue
| Query | Range | SortBy | VariableDefinition | VariableName.

Global Instance eq_dec : EqDecision t.
Proof. solve_decision. Defined.
End NodeType.

(** A node covers a span of the source text. *)
Record Span : Type := mkSpan { span_start : nat; span_end : nat }.

Record Literal : Type := mkLiteral { literal_pos : Span; literal_value : string }.

Record VariableName : Type :=
  mkVariableName { variable_pos : Span; variable_value : string }.

(** Modelled from the spec: the [Node] union of [nodes.ts].  A child is a
    [Node] of any kind, as the validator itself only inspects [_type]; the
    qualifier of a qualified value and the name of a definition are the two
    children whose [value] the code reads without a test of their kind, so
    they are a [Literal] and a [VariableName].  The boundaries of a range are
    optional. *)
Unset Elimination Schemes.
Inductive Node : Type :=
| AnyNode (pos : Span) (tokenType : TokenType)
| CompareNode (pos : Span) (cmp : string) (value : Node)
| DateNode (pos : Span)
| LiteralNode (lit : Literal)
| MissingNode (pos : Span) (message : string)
| NumberNode (pos : Span)
| QualifiedValueNode (pos : Span) (qualifier : Literal) (value : Node)
| QueryNode (pos : Span) (nodes : list Node)
| RangeNode (pos : Span) (open close : option Node)
| SortByNode (pos : Span) (criteria : Node)
| VariableDefinitionNode (pos : Span) (name : VariableName) (value : Node)
| VariableNameNode (var : VariableName).
Set Elimination Schemes.

(** The root of a document: its top-level nodes and the raw source text. *)
Record QueryDocumentNode : Type :=
  mkDoc { doc_nodes : list Node; doc_text : string }.

Definition nodeType (n : Node) : NodeType.t :=
  match n with
  | AnyNode _ _ => NodeType.Any
  | CompareNode _ _ _ => NodeType.Compare
  | DateNode _ => NodeType.Date
  | LiteralNode _ => NodeType.Literal
  | MissingNode _ _ => NodeType.Missing
  | NumberNode _ => NodeType.Number
  | QualifiedValueNode _ _ _ => NodeType.QualifiedValue
  | QueryNode _ _ => NodeType.Query
  | RangeNode _ _ _ => NodeType.Range
  | SortByNode _ _ => NodeType.SortBy
  | VariableDefinitionNode _ _ _ => NodeType.VariableDefinition
  | VariableNameNode _ => NodeType.VariableName
  end.

(** Modelled from the spec: [Utils.walk] of [nodes.ts] (spec, section 4.1):
    the callback is invoked once per node of the subtree, the root included,
    in pre-order and without filtering; what the callback returns is ignored.
    [walk n] is the sequence of nodes handed to the callback, so that
    [Utils.walk(n, cb)] is a left fold of [cb] over [walk n]. *)
Fixpoint walk (n : Node) : list Node :=
  n ::
  match n with
  | CompareNode _ _ value => walk value
  | QualifiedValueNode _ qualifier value => LiteralNode qualifier :: walk value
  | QueryNode _ nodes => concat (map walk nodes)
  | RangeNode _ open close =>
      from_option walk [] open ++ from_option walk [] close
  | SortByNode _ criteria => walk criteria
  | VariableDefinitionNode _ name value => VariableNameNode name :: walk value
  | _ => []
  end.

(** The nodes below the document root, in visiting order.  The root itself is
    visited first; no callback of this development acts on it. *)
Definition walkDocument (doc : QueryDocumentNode) : list Node :=
  concat (map walk (doc_nodes doc)).

(** Number of nodes of a subtree, and of a whole document (root included). *)
Definition nodeCount (n : Node) : nat := length (walk n).

Definition documentCount (doc : QueryDocumentNode) : nat :=
  S (length (walkDocument doc)).

(** *** Induction on syntax trees *)

Section NodeInduction.
Variable P : Node → Prop.
Hypothesis HAny : ∀ pos t, P (AnyNode pos t).
Hypothesis HCompare : ∀ pos cmp v, P v → P (CompareNode pos cmp v).
Hypothesis HDate : ∀ pos, P (DateNode pos).
Hypothesis HLiteral : ∀ l, P (LiteralNode l).
Hypothesis HMissing : ∀ pos msg, P (MissingNode pos msg).
Hypothesis HNumber : ∀ pos, P (NumberNode pos).
Hypothesis HQualified : ∀ pos q v, P v → P (QualifiedValueNode pos q v).
Hypothesis HQuery : ∀ pos ns, Forall P ns → P (QueryNode pos ns).
Hypothesis HRange : ∀ pos o c,
    from_option P True o → from_option P True c → P (RangeNode pos o c).
Hypothesis HSortBy : ∀ pos c, P c → P (SortByNode pos c).
Hypothesis HDefinition : ∀ pos name v, P v → P (VariableDefinitionNode pos name v).
Hypothesis HVariable : ∀ v, P (VariableNameNode v).

Fixpoint Node_ind (n : Node) : P n :=
  match n with
  | AnyNode pos t => HAny pos t
  | CompareNode pos cmp v => HCompare pos cmp v (Node_ind v)
  | DateNode pos => HDate pos
  | LiteralNode l => HLiteral l
  | MissingNode pos msg => HMissing pos msg
  | NumberNode pos => HNumber pos
  | QualifiedValueNode pos q v => HQualified pos q v (Node_ind v)
  | QueryNode pos ns =>
      HQuery pos ns
        ((fix all (l : list Node) : Forall P l :=
            match l with
            | [] => @List.Forall_nil Node P
            | x :: r => @List.Forall_cons Node P x r (Node_ind x) (all r)
            end) ns)
  | RangeNode pos o c =>
      HRange pos o c
        (match o return from_option P True o with
         | Some x => Node_ind x
         | None => I
         end)
        (match c return from_option P True c with
         | Some x => Node_ind x
         | None => I
         end)
  | SortByNode pos c => HSortBy pos c (Node_ind c)
  | VariableDefinitionNode pos name v => HDefinition pos name v (Node_ind v)
  | VariableNameNode v => HVariable v
  end.
End NodeInduction.

(** ** Symbols *)

(** Modelled from the spec: [ValueType] of [symbols.ts], the scalar types a
    qualifier may expect (spec, section 3). *)
Module ValueType.
Inductive t : Type := Text | Number | Date.

Global Instance eq_dec : EqDecision t.
Proof. solve_decision. Defined.
End ValueType.

(** The payload of a static symbol: a scalar type, or an ordered list of
    mutually exclusive value sets (a JS [Set] iterates in insertion order). *)
Inductive StaticValue : Type :=
| Scalar (type : ValueType.t)
| Sets (sets : list (list string)).

(** Modelled from the spec: the two symbol kinds of [symbols.ts]. *)
Inductive Symbol : Type :=
| Static (value : StaticValue)
| User (type : ValueType.t) (value : string).

(** Modelled from the spec: the table is only ever queried by name
    ([getFirst]), which yields at most one symbol. *)
Definition SymbolTable : Type := string → option Symbol.

Definition getFirst (symbols : SymbolTable) (name : string) : option Symbol :=
  symbols name.

(** ** Diagnostics *)

Record ValidationError : Type :=
  mkError { err_node : Node; err_message : string; err_conflictNode : option Node }.

(** ** The validator ([validation.ts]) *)

(** A callback either runs to its end or leaves through [return]. *)
Inductive Flow (S : Type) : Type :=
| Next (s : S)
| Return (s : S).
Arguments Next {S} s.
Arguments Return {S} s.

Definition andThen {S : Type} (f : Flow S) (k : S → Flow S) : Flow S :=
  match f with
  | Next s => k s
  | Return s => Return s
  end.

Definition finish {S : Type} (f : Flow S) : S :=
  match f with Next s | Return s => s end.

Notation "f >> k" := (andThen f k) (at level 61, left associativity).

(** The state a walk of [validateQuery] threads through its callback: the
    bucket of diagnostics and the per-query map [mutual]. *)
Record QueryState : Type :=
  mkState { bucket : list ValidationError; mutual : gmap string Node }.

Definition push (e : ValidationError) (st : QueryState) : QueryState :=
  {| bucket := bucket st ++ [e]; mutual := mutual st |}.

Definition setMutual (m : gmap string Node) (st : QueryState) : QueryState :=
  {| bucket := bucket st; mutual := m |}.

(** [Array.prototype.join]. *)
Fixpoint join (sep : string) (l : list string) : string :=
  match l with
  | [] => ""
  | [x] => x
  | x :: rest => x +:+ sep +:+ join sep rest
  end.

(** [set.has(value)]. *)
Definition has (set : list string) (value : string) : bool :=
  existsb (String.eqb value) set.

(** The inner loop: every member of [set] other than [value] is mapped to
    [node]. *)
Definition register (value : string) (node : Node) (set : list string)
    (m : gmap string Node) : gmap string Node :=
  foldl (λ acc candidate,
           if String.eqb candidate value then acc else <[candidate := node]> acc)
        m set.

(** The loop over [info.value]: stops at the first set that has [value];
    the boolean is [found]. *)
Fixpoint scanSets (sets : list (list string)) (value : string) (node : Node)
    (m : gmap string Node) : bool * gmap string Node :=
  match sets with
  | [] => (false, m)
  | set :: rest =>
      if has set value then (true, register value node set m)
      else scanSets rest value node m
  end.

Definition isNumberOrDateLike (node : Node) (what : NodeType.t) : bool :=
  if bool_decide (nodeType node = what) then true
  else
    match node with
    | CompareNode _ _ value => bool_decide (nodeType value = what)
    | RangeNode _ open close =>
        from_option (λ o, bool_decide (nodeType o = what)) false open
        || from_option (λ c, bool_decide (nodeType c = what)) false close
    | _ => false
    end.

Definition conflictMessage : string := "Conflicts with mutual exclusive expression".
Definition unknownVariableMessage : string := "Unknown variable".
Definition rangeMessage : string := "Range must start and end with equals types".
Definition orMessage : string := "OR is not supported when defining a variable".
Definition selfReferenceMessage : string :=
  "Cannot reference a variable from its definition".

Section Validation.

(** Missing from the sources: how a [ValueType] prints inside a template
    string, and the allowed sort fields [sortValues] of [symbols.ts]. *)
Variable typeText : ValueType.t → string.
Variable sortValues : list string.

Definition unknownQualifierMessage (name : string) : string :=
  "Unknown qualifier: '" +:+ name +:+ "'".

Definition unknownValueMessage (sets : list (list string)) : string :=
  "Unknown value, must be one of: " +:+ join ", " (map (join ", ") sets).

Definition invalidValueMessage (type : ValueType.t) : string :=
  "Invalid value, expected " +:+ typeText type.

Definition unknownSortMessage : string :=
  "Unknown value, must be one of: " +:+ join ", " sortValues.

(** [if (node._type === NodeType.QualifiedValue) { ... }] *)
Definition checkQualifiedValue (symbols : SymbolTable) (node : Node)
    (st : QueryState) : Flow QueryState :=
  match node with
  | QualifiedValueNode _ qualifier value =>
      match getFirst symbols (literal_value qualifier) with
      | Some (Static info) =>
          match info with
          | Sets sets =>
              let v := match value with
                       | LiteralNode l => literal_value l
                       | _ => ""
                       end in
              match mutual st !! v with
              | Some first =>
                  Return (push (mkError node conflictMessage (Some first)) st)
              | None =>
                  let '(found, m) := scanSets sets v node (mutual st) in
                  if found then Next (setMutual m st)
                  else Return (push (mkError value (unknownValueMessage sets) None) st)
              end
          | Scalar type =>
              match value with
              | VariableNameNode var =>
                  match getFirst symbols (variable_value var) with
                  | Some (User vtype _) =>
                      if bool_decide (vtype = type) then Next st
                      else Next (push (mkError value (invalidValueMessage type) None) st)
                  | _ => Next (push (mkError value (invalidValueMessage type) None) st)
                  end
              | _ =>
                  if bool_decide (type = ValueType.Date)
                     && negb (isNumberOrDateLike value NodeType.Date)
                  then Next (push (mkError value "Invalid value, expected date" None) st)
                  else if bool_decide (type = ValueType.Number)
                          && negb (isNumberOrDateLike value NodeType.Number)
                  then Next (push (mkError value "Invalid value, expected number" None) st)
                  else Next st
              end
          end
      | _ =>
          Return (push (mkError (LiteralNode qualifier)
                                (unknownQualifierMessage (literal_value qualifier))
                                None) st)
      end
  | _ => Next st
  end.

(** [if (node._type === NodeType.VariableName) { ... }] *)
Definition checkVariableName (symbols : SymbolTable) (node : Node)
    (st : QueryState) : Flow QueryState :=
  match node with
  | VariableNameNode var =>
      match getFirst symbols (variable_value var) with
      | Some (User _ _) => Next st
      | _ => Return (push (mkError node unknownVariableMessage None) st)
      end
  | _ => Next st
  end.

(** [if (node._type === NodeType.Range) { ... }] *)
Definition checkRange (node : Node) (st : QueryState) : Flow QueryState :=
  match node with
  | RangeNode _ (Some open) (Some close) =>
      if bool_decide (nodeType open ≠ nodeType close)
      then Return (push (mkError node rangeMessage None) st)
      else Next st
  | _ => Next st
  end.

(** [if (node._type === NodeType.SortBy) { ... }] *)
Definition checkSortBy (node : Node) (st : QueryState) : Flow QueryState :=
  match node with
  | SortByNode _ (LiteralNode l as criteria) =>
      if negb (has sortValues (literal_value l))
      then Next (push (mkError criteria unknownSortMessage None) st)
      else Next st
  | _ => Next st
  end.

(** [if (node._type === NodeType.Missing) { ... }] *)
Definition checkMissing (node : Node) (st : QueryState) : Flow QueryState :=
  match node with
  | MissingNode _ message => Return (push (mkError node message None) st)
  | _ => Next st
  end.

(** The callback of [validateQuery], the five checks in the order of the
    source. *)
Definition visitQuery (symbols : SymbolTable) (st : QueryState) (node : Node)
    : QueryState :=
  finish (checkQualifiedValue symbols node st
            >> checkVariableName symbols node
            >> checkRange node
            >> checkSortBy node
            >> checkMissing node).

Definition validateQuery (query : Node) (bucket0 : list ValidationError)
    (symbols : SymbolTable) : list ValidationError :=
  bucket (foldl (visitQuery symbols) (mkState bucket0 ∅) (walk query)).

(** The callback of [validateVariableDefinition]; the two tests are
    independent [if]s without [return]. *)
Definition visitDefinition (name : VariableName)
    (bucket0 : list ValidationError) (node : Node) : list ValidationError :=
  let bucket1 :=
    match node with
    | AnyNode _ OR => bucket0 ++ [mkError node orMessage None]
    | _ => bucket0
    end in
  match node with
  | VariableNameNode var =>
      if String.eqb (variable_value var) (variable_value name)
      then bucket1 ++ [mkError node selfReferenceMessage None]
      else bucket1
  | _ => bucket1
  end.

Definition validateVariableDefinition (defNode : Node)
    (bucket0 : list ValidationError) : list ValidationError :=
  match defNode with
  | VariableDefinitionNode _ name value =>
      foldl (visitDefinition name) bucket0 (walk value)
  | _ => bucket0
  end.

(** The callback of [validateQueryDocument]: the [switch] on [_type]. *)
Definition visitDocument (symbols : SymbolTable)
    (result : list ValidationError) (node : Node) : list ValidationError :=
  match node with
  | QueryNode _ _ => validateQuery node result symbols
  | VariableDefinitionNode _ _ _ => validateVariableDefinition node result
  | _ => result
  end.

Definition validateQueryDocument (doc : QueryDocumentNode)
    (symbols : SymbolTable) : list ValidationError :=
  foldl (visitDocument symbols) [] (walkDocument doc).

End Validation.

(** ** The repository extractor ([utils.ts]) *)

Record RepoInfo : Type := mkRepoInfo { owner : string; repo : string }.

(** Modelled from the spec: [project.ts] is absent; the extractor reads
    nothing of a project but its symbol table. *)
Record Project : Type := mkProject { project_symbols : SymbolTable }.

(** A value as the extractor holds it at run time: a string, or the array
    of value sets that a static symbol may carry. *)
Inductive RepoValue : Type :=
| Text (s : string)
| SetArray (sets : list (list string)).

(** [string.indexOf(c)] for a pattern of one character; -1 when absent.
    Strings are sequences of bytes here and of UTF-16 units in the source;
    the separator is ASCII, so the split falls at the same place. *)
Fixpoint indexOf (s : string) (c : ascii) : Z :=
  match s with
  | EmptyString => (-1)%Z
  | String x rest =>
      if Ascii.eqb x c then 0%Z
      else let i := indexOf rest c in
           if (i <? 0)%Z then (-1)%Z else (i + 1)%Z
  end.

(** [string.substring(start, end)]: both indices are clamped to the string
    and swapped when out of order. *)
Definition substring (s : string) (start end_ : Z) : string :=
  let len := Z.of_nat (String.length s) in
  let a := Z.max 0 (Z.min start len) in
  let b := Z.max 0 (Z.min end_ len) in
  String.substring (Z.to_nat (Z.min a b)) (Z.to_nat (Z.max a b - Z.min a b)) s.

(** [string.substring(start)]. *)
Definition substringFrom (s : string) (start : Z) : string :=
  substring s start (Z.of_nat (String.length s)).

(** [if (value)] on a string: the empty string is falsy. *)
Definition truthy (s : string) : bool := negb (String.eqb s "").

(** [if (value)] in general: an array is never falsy. *)
Definition truthyValue (v : RepoValue) : bool :=
  match v with
  | Text s => truthy s
  | SetArray _ => true
  end.

Section Extractor.

(** Missing from the sources: [Utils.print] of [nodes.ts], which renders a
    subtree from the source text, given a resolver for variable names. *)
Variable print : Node → string → (string → option string) → string.

(** Missing from the sources: the string that a member of the enum
    [ValueType] is (the validator prints it inside a template string). *)
Variable typeText : ValueType.t → string.

(** The property [value] of a symbol, read without a test of its kind: the
    literal of a user variable, and for a static symbol its payload, a member
    of [ValueType] or the array of value sets. *)
Definition symbolValue (s : Symbol) : RepoValue :=
  match s with
  | User _ value => Text value
  | Static (Scalar type) => Text (typeText type)
  | Static (Sets sets) => SetArray sets
  end.

(** The callback of the walk in [getRepoInfos]. *)
Definition visitRepo (doc : QueryDocumentNode) (project : Project)
    (repoStrings : list RepoValue) (node : Node) : list RepoValue :=
  match node with
  | QualifiedValueNode _ qualifier value =>
      if negb (String.eqb (literal_value qualifier) "repo") then repoStrings
      else
        let value' : option RepoValue :=
          match value with
          | VariableNameNode var =>
              symbolValue
                <$> getFirst (project_symbols project) (variable_value var)
          | _ => Some (Text (print value (doc_text doc) (λ _, None)))
          end in
        match value' with
        | Some v => if truthyValue v then repoStrings ++ [v] else repoStrings
        | None => repoStrings
        end
  | _ => repoStrings
  end.

(** The body of the final loop, for a string. *)
Definition splitRepo (s : string) : list RepoInfo :=
  let idx := indexOf s "/" in
  if (idx >? 0)%Z
  then [mkRepoInfo (substring s 0 idx) (substringFrom s (idx + 1))]
  else [].

(** The body of the final loop.  On an array, [indexOf('/')] looks for an
    element that is the string '/'; the elements are sets, so it is -1 and
    nothing is yielded. *)
Definition splitValue (v : RepoValue) : list RepoInfo :=
  match v with
  | Text s => splitRepo s
  | SetArray _ => []
  end.

(** The generator, as the sequence it yields.  The call of [Utils.print]
    that opens the function discards its result. *)
Definition getRepoInfos (doc : QueryDocumentNode) (project : Project)
    : list RepoInfo :=
  let repoStrings := foldl (visitRepo doc project) [] (walkDocument doc) in
  concat (map splitValue repoStrings).

(** *** The extractor in the words of the specification *)



(** The text before and after the first occurrence of [c], if any. *)
Fixpoint splitAtFirst (c : ascii) (s : string) : option (string * string) :=
  match s with
  | EmptyString => None
  | String x rest =>
      if Ascii.eqb x c then Some (EmptyString, rest)
      else match splitAtFirst c rest with
           | Some (before, after) => Some (String x before, after)
           | None => None
           end
  end.

(** A record from the two sides when the separator stands at a position
    greater than zero; nothing otherwise. *)
Definition emitSpec (s : string) : list RepoInfo :=
  match splitAtFirst "/" s with
  | Some (before, after) =>
      if 0 <? String.length before then [mkRepoInfo before after] else []
  | None => []
  end.


End Extractor.

(** ** Observations on a validation *)

(** Auxiliary definitions in which the theorems below are stated. *)

Definition isConflict (e : ValidationError) : bool :=
  match err_conflictNode e with Some _ => true | None => false end.

(** The diagnostics that carry a conflicting node. *)
Definition conflicts (l : list ValidationError) : list ValidationError :=
  List.filter isConflict l.

(** Date-like and number-like values, in the words of the specification:
    a node of the kind itself, a comparison whose operand is of the kind,
    or a range with at least one boundary of the kind. *)
Definition likeSpec (what : NodeType.t) (v : Node) : Prop :=
  nodeType v = what
  ∨ (∃ pos cmp x, v = CompareNode pos cmp x ∧ nodeType x = what)
  ∨ (∃ pos o c x, v = RangeNode pos o c ∧ (o = Some x ∨ c = Some x)
                  ∧ nodeType x = what).

(** A range whose two boundaries are present and of different kinds. *)
Definition mismatched (n : Node) : bool :=
  match n with
  | RangeNode _ (Some open) (Some close) =>
      bool_decide (nodeType open ≠ nodeType close)
  | _ => false
  end.



(** The text a qualified value is known by in [mutual]: its literal value,
    and the empty string when the value is not a literal. *)
Definition valueText (n : Node) : string :=
  match n with
  | QualifiedValueNode _ _ (LiteralNode l) => literal_value l
  | _ => ""
  end.

(** A diagnostic that names a conflicting node names a node among [visited]
    whose text differs from the text of the node it is attached to. *)
Definition conflictWithin (visited : list Node) (e : ValidationError) : Prop :=
  ∀ c, err_conflictNode e = Some c →
       In c visited ∧ valueText c ≠ valueText (err_node e).

(** Every entry of [mutual] maps a text to a node visited before whose own
    text is another one. *)
Definition mutualInvariant (visited : list Node) (m : gmap string Node) : Prop :=
  ∀ k c, m !! k = Some c → In c visited ∧ valueText c ≠ k.

(** [Array.prototype.find] over the sets: the first set that has [v]. *)
Definition firstSet (sets : list (list string)) (v : string)
    : option (list string) :=
  List.find (λ set, has set v) sets.

(** [x] is a qualified value whose qualifier carries value sets, and [k] is
    another member of the first of these sets that has the text of [x]: the
    keys under which [x] is registered in [mutual] when it is accepted. *)
Definition excludes (symbols : SymbolTable) (x : Node) (k : string) : bool :=
  match x with
  | QualifiedValueNode _ qualifier _ =>
      match getFirst symbols (literal_value qualifier) with
      | Some (Static (Sets sets)) =>
          match firstSet sets (valueText x) with
          | Some set => has set k && negb (String.eqb k (valueText x))
          | None => false
          end
      | _ => false
      end
  | _ => false
  end.

(** Every entry of [mutual] maps a text to a node visited before that
    excludes it. *)
Definition registered (symbols : SymbolTable) (visited : list Node)
    (m : gmap string Node) : Prop :=
  ∀ k c, m !! k = Some c → In c visited ∧ excludes symbols c k = true.

Definition isOrToken (n : Node) : bool :=
  match n with
  | AnyNode _ OR => true
  | _ => false
  end.

Definition isSelfReference (name : VariableName) (n : Node) : bool :=
  match n with
  | VariableNameNode var => String.eqb (variable_value var) (variable_value name)
  | _ => false
  end.

(** Query nodes and variable definitions: the nodes the top-level callback
    acts on. *)
Definition isDispatch (n : Node) : bool :=
  match n with
  | QueryNode _ _ | VariableDefinitionNode _ _ _ => true
  | _ => false
  end.




(** No query node and no definition lies below this node. *)
Definition flat (n : Node) : bool :=
  forallb (λ x, negb (isDispatch x)) (tail (walk n)).

(** Where a diagnostic points: at a node among [nodes], and so does the
    conflicting node it may name. *)
Definition pointsInto (nodes : list Node) (e : ValidationError) : Prop :=
  In (err_node e) nodes ∧ ∀ c, err_conflictNode e = Some c → In c nodes.

(** A qualified value whose qualifier reads "repo". *)
Definition isRepoQualified (n : Node) : bool :=
  match n with
  | QualifiedValueNode _ qualifier _ => String.eqb (literal_value qualifier) "repo"
  | _ => false
  end.

(** The list [repoStrings] that the walk of [getRepoInfos] fills. *)
Definition repoStrings (print : Node → string → (string → option string) → string)
    (typeText : ValueType.t → string)
    (doc : QueryDocumentNode) (project : Project) : list RepoValue :=
  foldl (visitRepo print typeText doc project) [] (walkDocument doc).

Section Observations.

Variable typeText : ValueType.t → string.
Variable sortValues : list string.
Variable symbols : SymbolTable.

Local Abbreviation visit := (visitQuery typeText sortValues symbols).

(** What one visit appends, and the map it leaves, from a map [m]. *)
Definition emitted (m : gmap string Node) (n : Node) : list ValidationError :=
  bucket (visit (mkState [] m) n).

Definition mutualAfter (m : gmap string Node) (n : Node) : gmap string Node :=
  mutual (visit (mkState [] m) n).

Definition emittedAll (m : gmap string Node) (l : list Node)
    : list ValidationError :=
  bucket (foldl visit (mkState [] m) l).

Definition mutualAfterAll (m : gmap string Node) (l : list Node)
    : gmap string Node :=
  mutual (foldl visit (mkState [] m) l).

(** A node that is a qualified value whose qualifier carries value sets:
    the only kind of node that reads or writes [mutual]. *)
Definition usesMutual (n : Node) : bool :=
  match n with
  | QualifiedValueNode _ qualifier _ =>
      match getFirst symbols (literal_value qualifier) with
      | Some (Static (Sets _)) => true
      | _ => false
      end
  | _ => false
  end.

(** A subtree none of whose nodes touches [mutual]. *)
Definition neutral (n : Node) : bool :=
  forallb (λ x, negb (usesMutual x)) (walk n).

(** What the visit of one node appends to the result of the document. *)
Definition dispatched (n : Node) : list ValidationError :=
  visitDocument typeText sortValues symbols [] n.

(** The name resolves to a user variable. *)
Definition isUser (name : string) : bool :=
  match getFirst symbols name with
  | Some (User _ _) => true
  | _ => false
  end.

End Observations.

Arguments dispatched : simpl never.

(** ** Concrete documents *)

Module Examples.

Definition typeNames (type : ValueType.t) : string :=
  match type with
  | ValueType.Text => "string"
  | ValueType.Number => "number"
  | ValueType.Date => "date"
  end.

Definition sortFields : list string := ["created"; "updated"; "comments"].

(** A table with the qualifiers [is] and [created] and the user variable
    [$start]. *)
Definition table : SymbolTable :=
  λ name,
    if String.eqb name "is"
    then Some (Static (Sets [["pr"; "issue"]; ["open"; "closed"]]))
    else if String.eqb name "created" then Some (Static (Scalar ValueType.Date))
    else if String.eqb name "$start" then Some (User ValueType.Date "2020-01-01")
    else None.

Definition validate (doc : QueryDocumentNode) : list ValidationError :=
  validateQueryDocument typeNames sortFields doc table.

Definition literal (start end_ : nat) (value : string) : Literal :=
  mkLiteral (mkSpan start end_) value.

Definition variable (start end_ : nat) (value : string) : VariableName :=
  mkVariableName (mkSpan start end_) value.

(** [is:pr is:issue] *)
Definition isPr : Node :=
  QualifiedValueNode (mkSpan 0 5) (literal 0 2 "is") (LiteralNode (literal 3 5 "pr")).

Definition isIssue : Node :=
  QualifiedValueNode (mkSpan 6 14) (literal 6 8 "is")
                     (LiteralNode (literal 9 14 "issue")).

Definition prAndIssue : QueryDocumentNode :=
  mkDoc [QueryNode (mkSpan 0 14) [isPr; isIssue]] "is:pr is:issue".

(** [label:$me], neither name bound. *)
Definition me : Node := VariableNameNode (variable 6 9 "$me").

Definition labelMe : QueryDocumentNode :=
  mkDoc [QueryNode (mkSpan 0 9)
           [QualifiedValueNode (mkSpan 0 9) (literal 0 5 "label") me]]
        "label:$me".

(** [created:$since], the variable not bound. *)
Definition since : Node := VariableNameNode (variable 8 14 "$since").

Definition createdSince : QueryDocumentNode :=
  mkDoc [QueryNode (mkSpan 0 14)
           [QualifiedValueNode (mkSpan 0 14) (literal 0 7 "created") since]]
        "created:$since".

(** [created:$start], the variable bound to a date. *)
Definition start : Node := VariableNameNode (variable 8 14 "$start").

Definition createdStart : QueryDocumentNode :=
  mkDoc [QueryNode (mkSpan 0 14)
           [QualifiedValueNode (mkSpan 0 14) (literal 0 7 "created") start]]
        "created:$start".

(** [created:bug] *)
Definition createdBug : Node :=
  QualifiedValueNode (mkSpan 0 11) (literal 0 7 "created")
                     (LiteralNode (literal 8 11 "bug")).

(** [$a=$a $a $a $a $a], the variable not bound. *)
Definition selfish : QueryDocumentNode :=
  mkDoc [VariableDefinitionNode (mkSpan 0 17) (variable 0 2 "$a")
           (QueryNode (mkSpan 3 17)
              [VariableNameNode (variable 3 5 "$a");
               VariableNameNode (variable 6 8 "$a");
               VariableNameNode (variable 9 11 "$a");
               VariableNameNode (variable 12 14 "$a");
               VariableNameNode (variable 15 17 "$a")])]
        "$a=$a $a $a $a $a".

(** [$a=], the value a placeholder of the parser. *)
Definition noValue : Node := MissingNode (mkSpan 3 3) "Expected query".

Definition emptyDefinition : QueryDocumentNode :=
  mkDoc [VariableDefinitionNode (mkSpan 0 3) (variable 0 2 "$a") noValue] "$a=".

(** [$a=label:], the definition's value a query. *)
Definition noLabel : Node := MissingNode (mkSpan 9 9) "Expected value".

Definition definedQuery : Node :=
  QueryNode (mkSpan 3 9)
    [QualifiedValueNode (mkSpan 3 9) (literal 3 8 "label") noLabel].

Definition definitionWithQuery : QueryDocumentNode :=
  mkDoc [VariableDefinitionNode (mkSpan 0 9) (variable 0 2 "$a") definedQuery]
        "$a=label:".

(** [$a=bug], the definition's value a plain literal. *)
Definition plainDefinition : Node :=
  VariableDefinitionNode (mkSpan 0 6) (variable 0 2 "$a")
                         (LiteralNode (literal 3 6 "bug")).

(** [is:open label:] *)
Definition brokenQuery : Node :=
  QueryNode (mkSpan 0 14)
    [QualifiedValueNode (mkSpan 0 7) (literal 0 2 "is")
                        (LiteralNode (literal 3 7 "open"));
     QualifiedValueNode (mkSpan 8 14) (literal 8 13 "label")
                        (MissingNode (mkSpan 14 14) "Expected value")].

(** A printer that slices the span of a literal from the source text, as
    far as these examples need one. *)
Definition slice (node : Node) (text : string)
    (variableValue : string → option string) : string :=
  match node with
  | LiteralNode l =>
      substring text (Z.of_nat (span_start (literal_pos l)))
                (Z.of_nat (span_end (literal_pos l)))
  | _ => ""
  end.

Definition project : Project := mkProject table.

Definition repoOf (start : nat) (text : string) : Node :=
  QualifiedValueNode (mkSpan start (start + 5 + String.length text))
    (literal start (start + 4) "repo")
    (LiteralNode (literal (start + 5) (start + 5 + String.length text) text)).

End Examples.

(** ** More concrete documents *)

Module MoreExamples.

Import Examples.

(** A table in which two qualifiers with value sets share values, and one
    qualifier expects plain text. *)
Definition crossTable : SymbolTable :=
  λ name,
    if String.eqb name "is"
    then Some (Static (Sets [["pr"; "issue"]; ["open"; "closed"]]))
    else if String.eqb name "state"
    then Some (Static (Sets [["open"; "closed"; "merged"]]))
    else if String.eqb name "author" then Some (Static (Scalar ValueType.Text))
    else None.

(** [is:open state:closed] *)
Definition isOpen : Node :=
  QualifiedValueNode (mkSpan 0 7) (literal 0 2 "is") (LiteralNode (literal 3 7 "open")).

Definition stateClosed : Node :=
  QualifiedValueNode (mkSpan 8 20) (literal 8 13 "state")
                     (LiteralNode (literal 14 20 "closed")).

(** [is:foo] *)
Definition isFoo : Node :=
  QualifiedValueNode (mkSpan 0 6) (literal 0 2 "is") (LiteralNode (literal 3 6 "foo")).

(** [author:bug] *)
Definition authorBug : Node :=
  QualifiedValueNode (mkSpan 0 10) (literal 0 6 "author")
                     (LiteralNode (literal 7 10 "bug")).

(** [2020-01-01..5], a range from a date to a number. *)
Definition dateToNumber : Node :=
  RangeNode (mkSpan 0 13) (Some (DateNode (mkSpan 0 10)))
            (Some (NumberNode (mkSpan 12 13))).


(** [repo:acme/widgets] *)
Definition acmeWidgets : QueryDocumentNode :=
  mkDoc [QueryNode (mkSpan 0 17) [repoOf 0 "acme/widgets"]] "repo:acme/widgets".

(** [is:pr is:pr is:issue] *)
Definition isPrAgain : Node :=
  QualifiedValueNode (mkSpan 6 11) (literal 6 8 "is") (LiteralNode (literal 9 11 "pr")).

Definition isIssueLast : Node :=
  QualifiedValueNode (mkSpan 12 20) (literal 12 14 "is")
                     (LiteralNode (literal 15 20 "issue")).

Definition prPrIssue : QueryDocumentNode :=
  mkDoc [QueryNode (mkSpan 0 20) [isPr; isPrAgain; isIssueLast]]
        "is:pr is:pr is:issue".

(** [is:open is:pr is:issue] *)
Definition isAt (start end_ : nat) (value : string) : Node :=
  QualifiedValueNode (mkSpan start end_) (literal start (start + 2) "is")
                     (LiteralNode (literal (start + 3) end_ value)).

Definition openPrIssue : QueryDocumentNode :=
  mkDoc [QueryNode (mkSpan 0 22) [isOpen; isAt 8 13 "pr"; isAt 14 22 "issue"]]
        "is:open is:pr is:issue".

(** [state:open state:closed state:merged], three values of one set. *)
Definition stateOf (start end_ : nat) (value : string) : Node :=
  QualifiedValueNode (mkSpan start end_) (literal start (start + 5) "state")
                     (LiteralNode (literal (start + 6) end_ value)).

Definition threeStates : QueryDocumentNode :=
  mkDoc [QueryNode (mkSpan 0 36)
           [stateOf 0 10 "open"; stateOf 11 23 "closed"; stateOf 24 36 "merged"]]
        "state:open state:closed state:merged".






(** The placeholder of [$a=] as the only node of a query. *)
Definition queryOfNoValue : QueryDocumentNode :=
  mkDoc [QueryNode (mkSpan 3 3) [noValue]] "".

(** A "repo" qualifier whose value names the static symbol [is], and one
    whose value names the static symbol [created]. *)
Definition repoOfStatic (name : string) : QueryDocumentNode :=
  mkDoc [QueryNode (mkSpan 0 12)
           [QualifiedValueNode (mkSpan 0 12) (literal 0 4 "repo")
                               (VariableNameNode (variable 5 12 name))]]
        "".

End MoreExamples.

(** ** Framing: a callback only appends to the bucket *)

Section ValidationFacts.

Variable typeText : ValueType.t → string.
Variable sortValues : list string.
Variable symbols : SymbolTable.

Local Abbreviation visit := (visitQuery typeText sortValues symbols).
Local Abbreviation emitted' := (emitted typeText sortValues symbols).
Local Abbreviation mutualAfter' := (mutualAfter typeText sortValues symbols).
Local Abbreviation emittedAll' := (emittedAll typeText sortValues symbols).
Local Abbreviation mutualAfterAll' := (mutualAfterAll typeText sortValues symbols).
Local Abbreviation dispatched' := (dispatched typeText sortValues symbols).
Local Abbreviation neutral' := (neutral symbols).
Local Abbreviation usesMutual' := (usesMutual symbols).

Lemma visitQuery_frame (b : list ValidationError) (m : gmap string Node) (n : Node) :
  visit (mkState b m) n = mkState (b ++ emitted' m n) (mutualAfter' m n).
Proof.
  unfold emitted, mutualAfter, visitQuery.
  destruct n; simpl; rewrite ?app_nil_r; try reflexivity.
  - unfold checkQualifiedValue; simpl.
    repeat (case_match; simpl; rewrite ?app_nil_r; try reflexivity).
  - unfold checkRange. repeat (case_match; simpl; rewrite ?app_nil_r; try reflexivity).
  - unfold checkSortBy. repeat (case_match; simpl; rewrite ?app_nil_r; try reflexivity).
  - unfold checkVariableName.
    repeat (case_match; simpl; rewrite ?app_nil_r; try reflexivity).
Qed.

Lemma foldl_visitQuery_frame (l : list Node) (b : list ValidationError)
    (m : gmap string Node) :
  foldl visit (mkState b m) l = mkState (b ++ emittedAll' m l) (mutualAfterAll' m l).
Proof.
  unfold emittedAll, mutualAfterAll.
  revert b m. induction l as [|n l IH]; intros b m; simpl.
  - by rewrite app_nil_r.
  - rewrite (visitQuery_frame b m n), (visitQuery_frame [] m n).
    rewrite (IH (b ++ emitted' m n)), (IH ([] ++ emitted' m n)). simpl.
    by rewrite app_assoc.
Qed.

Lemma emittedAll_cons (m : gmap string Node) (n : Node) (l : list Node) :
  emittedAll' m (n :: l) = emitted' m n ++ emittedAll' (mutualAfter' m n) l.
Proof.
  unfold emittedAll at 1. simpl.
  rewrite (visitQuery_frame [] m n), foldl_visitQuery_frame. reflexivity.
Qed.

Lemma mutualAfterAll_cons (m : gmap string Node) (n : Node) (l : list Node) :
  mutualAfterAll' m (n :: l) = mutualAfterAll' (mutualAfter' m n) l.
Proof.
  unfold mutualAfterAll at 1. simpl.
  rewrite (visitQuery_frame [] m n), foldl_visitQuery_frame. reflexivity.
Qed.

Lemma emittedAll_app (m : gmap string Node) (l1 l2 : list Node) :
  emittedAll' m (l1 ++ l2) = emittedAll' m l1 ++ emittedAll' (mutualAfterAll' m l1) l2.
Proof.
  revert m. induction l1 as [|n l1 IH]; intros m; [reflexivity|].
  rewrite <- app_comm_cons, !emittedAll_cons, mutualAfterAll_cons, IH.
  by rewrite app_assoc.
Qed.

Lemma mutualAfterAll_app (m : gmap string Node) (l1 l2 : list Node) :
  mutualAfterAll' m (l1 ++ l2) = mutualAfterAll' (mutualAfterAll' m l1) l2.
Proof.
  revert m. induction l1 as [|n l1 IH]; intros m; [reflexivity|].
  by rewrite <- app_comm_cons, !mutualAfterAll_cons, IH.
Qed.

Lemma validateQuery_emitted (q : Node) (b : list ValidationError) :
  validateQuery typeText sortValues q b symbols = b ++ emittedAll' ∅ (walk q).
Proof. unfold validateQuery. by rewrite foldl_visitQuery_frame. Qed.

(** *** The mutual-exclusion map *)

Lemma has_cons (c : string) (set : list string) (k : string) :
  has (c :: set) k = String.eqb k c || has set k.
Proof. reflexivity. Qed.

Lemma register_lookup (v : string) (node : Node) (set : list string)
    (m : gmap string Node) (k : string) :
  register v node set m !! k
  = if has set k && negb (String.eqb k v) then Some node else m !! k.
Proof.
  unfold register. revert m.
  induction set as [|c set IH]; intros m; [reflexivity|].
  simpl foldl. rewrite IH, has_cons.
  destruct (has set k) eqn:Hk; simpl.
  - rewrite orb_true_r. simpl.
    destruct (String.eqb_spec k v) as [->|Hkv]; simpl; [|reflexivity].
    destruct (String.eqb_spec c v) as [->|Hcv]; [reflexivity|].
    by rewrite lookup_insert_ne.
  - rewrite orb_false_r.
    destruct (String.eqb_spec k c) as [->|Hkc]; simpl.
    + destruct (String.eqb_spec c v) as [->|Hcv]; simpl; [reflexivity|].
      by rewrite lookup_insert_eq.
    + destruct (String.eqb c v); [reflexivity|].
      by rewrite lookup_insert_ne.
Qed.

Lemma scanSets_first (before : list (list string)) (set : list string)
    (after : list (list string)) (v : string) (node : Node)
    (m : gmap string Node) :
  forallb (λ other, negb (has other v)) before = true →
  has set v = true →
  scanSets (before ++ set :: after) v node m = (true, register v node set m).
Proof.
  intros Hbefore Hset.
  induction before as [|other before IH]; simpl in *.
  - by rewrite Hset.
  - apply andb_true_iff in Hbefore as [Hother Hbefore].
    apply negb_true_iff in Hother. rewrite Hother. by apply IH.
Qed.

Lemma conflicts_app (l1 l2 : list ValidationError) :
  conflicts (l1 ++ l2) = conflicts l1 ++ conflicts l2.
Proof. apply List.filter_app. Qed.

Lemma visitQuery_neutral (m : gmap string Node) (n : Node) :
  usesMutual' n = false →
  mutualAfter' m n = m ∧ conflicts (emitted' m n) = [].
Proof.
  unfold emitted, mutualAfter, visitQuery.
  destruct n; simpl; intros Hn; try (split; reflexivity).
  - unfold checkQualifiedValue; simpl. unfold getFirst in *.
    repeat (case_match; simpl; try discriminate; try (split; reflexivity)).
  - unfold checkRange. repeat (case_match; simpl; try (split; reflexivity)).
  - unfold checkSortBy. repeat (case_match; simpl; try (split; reflexivity)).
  - unfold checkVariableName.
    repeat (case_match; simpl; try (split; reflexivity)).
Qed.

Lemma foldl_visitQuery_neutral (l : list Node) (m : gmap string Node) :
  forallb (λ x, negb (usesMutual' x)) l = true →
  mutualAfterAll' m l = m ∧ conflicts (emittedAll' m l) = [].
Proof.
  induction l as [|n l IH]; intros Hl; [split; reflexivity|].
  simpl in Hl. apply andb_true_iff in Hl as [Hn Hl].
  apply negb_true_iff in Hn.
  destruct (visitQuery_neutral m n Hn) as [Hm Hc].
  rewrite mutualAfterAll_cons, emittedAll_cons, conflicts_app, Hm, Hc.
  by apply IH.
Qed.

Lemma neutral_concat (l : list Node) :
  forallb neutral' l = true →
  forallb (λ x, negb (usesMutual' x)) (concat (map walk l)) = true.
Proof.
  induction l as [|n l IH]; simpl; intros Hl; [reflexivity|].
  apply andb_true_iff in Hl as [Hn Hl].
  rewrite forallb_app. apply andb_true_iff. split; [exact Hn | by apply IH].
Qed.

(** *** Subtrees of a walk *)

Lemma walk_first (n : Node) : walk n = n :: tail (walk n).
Proof. by destruct n. Qed.

Lemma walk_closed (P : Node → bool) (n : Node) :
  forallb P (walk n) = true →
  Forall (λ x, forallb P (walk x) = true) (walk n).
Proof.
  induction n as [ | ? ? v IH | | | | | ? q v IH | ? ns IH | ? o c IHo IHc
                 | ? c IH | ? name v IH | ] using Node_ind;
    intros H; simpl walk; constructor; try exact H; try constructor;
    simpl in H; apply andb_true_iff in H as [Hn H].
  - by apply IH.
  - simpl. apply andb_true_iff in H as [Hq _]. by rewrite Hq.
  - apply andb_true_iff in H as [_ H]. by apply IH.
  - clear Hn. revert H.
    induction IH as [|x ns Hx _ IHns]; simpl; intros H; [constructor|].
    rewrite forallb_app in H. apply andb_true_iff in H as [H1 H2].
    apply Forall_app. split; [by apply Hx | by apply IHns].
  - rewrite forallb_app in H. apply andb_true_iff in H as [H1 H2].
    apply Forall_app. split.
    + destruct o; simpl in *; [by apply IHo | constructor].
    + destruct c; simpl in *; [by apply IHc | constructor].
  - by apply IH.
  - simpl. apply andb_true_iff in H as [Hq _]. by rewrite Hq.
  - apply andb_true_iff in H as [_ H]. by apply IH.
Qed.

(** *** Framing for the definition checker and the top-level dispatch *)

Lemma visitDefinition_frame (name : VariableName) (b : list ValidationError)
    (n : Node) :
  visitDefinition name b n = b ++ visitDefinition name [] n.
Proof.
  unfold visitDefinition.
  destruct n; simpl; rewrite ?app_nil_r; try reflexivity.
  - destruct tokenType; simpl; by rewrite ?app_nil_r.
  - destruct (String.eqb _ _); simpl; by rewrite ?app_nil_r.
Qed.

Lemma foldl_visitDefinition_frame (name : VariableName) (l : list Node)
    (b : list ValidationError) :
  foldl (visitDefinition name) b l
  = b ++ concat (map (visitDefinition name []) l).
Proof.
  revert b. induction l as [|n l IH]; intros b; simpl.
  - by rewrite app_nil_r.
  - by rewrite IH, visitDefinition_frame, app_assoc.
Qed.

Lemma visitDocument_frame (b : list ValidationError) (n : Node) :
  visitDocument typeText sortValues symbols b n = b ++ dispatched' n.
Proof.
  unfold dispatched, visitDocument.
  destruct n; rewrite ?app_nil_r; try reflexivity.
  - by rewrite !validateQuery_emitted.
  - unfold validateVariableDefinition. by rewrite !foldl_visitDefinition_frame.
Qed.

Lemma foldl_visitDocument_frame (l : list Node) (b : list ValidationError) :
  foldl (visitDocument typeText sortValues symbols) b l
  = b ++ concat (map dispatched' l).
Proof.
  revert b. induction l as [|n l IH]; intros b; simpl.
  - by rewrite app_nil_r.
  - by rewrite IH, visitDocument_frame, app_assoc.
Qed.

Lemma validateQueryDocument_dispatched (doc : QueryDocumentNode) :
  validateQueryDocument typeText sortValues doc symbols
  = concat (map dispatched' (walkDocument doc)).
Proof. unfold validateQueryDocument. by rewrite foldl_visitDocument_frame. Qed.

Lemma visitDefinition_conflicts (name : VariableName) (l : list Node) :
  conflicts (concat (map (visitDefinition name []) l)) = [].
Proof.
  induction l as [|n l IH]; [reflexivity|].
  simpl. rewrite conflicts_app, IH, app_nil_r.
  unfold visitDefinition. destruct n; simpl; try reflexivity.
  - by destruct tokenType.
  - by destruct (String.eqb _ _).
Qed.

Lemma dispatched_neutral (n : Node) :
  neutral' n = true → conflicts (dispatched' n) = [].
Proof.
  intros Hn. unfold dispatched, visitDocument.
  destruct n; try reflexivity.
  - rewrite validateQuery_emitted. simpl.
    by apply foldl_visitQuery_neutral.
  - unfold validateVariableDefinition.
    rewrite foldl_visitDefinition_frame. simpl.
    apply visitDefinition_conflicts.
Qed.

Lemma dispatched_neutral_walk (l : list Node) :
  forallb neutral' l = true →
  conflicts (concat (map dispatched' (concat (map walk l)))) = [].
Proof.
  induction l as [|n l IH]; simpl; intros Hl; [reflexivity|].
  apply andb_true_iff in Hl as [Hn Hl].
  rewrite map_app, concat_app, conflicts_app, (IH Hl), app_nil_r.
  apply walk_closed in Hn.
  induction Hn as [|x xs Hx _ IHxs]; [reflexivity|].
  simpl. rewrite conflicts_app, IHxs, app_nil_r. by apply dispatched_neutral.
Qed.

End ValidationFacts.

(** ** Mutually exclusive qualifier values *)

Section MutualExclusion.

Variable typeText : ValueType.t → string.
Variable sortValues : list string.
Variable symbols : SymbolTable.

Local Abbreviation emittedAll' := (emittedAll typeText sortValues symbols).
Local Abbreviation mutualAfterAll' := (mutualAfterAll typeText sortValues symbols).
Local Abbreviation emitted' := (emitted typeText sortValues symbols).
Local Abbreviation mutualAfter' := (mutualAfter typeText sortValues symbols).

Lemma scanSets_found (sets : list (list string)) (v : string) (node : Node)
    (m : gmap string Node) :
  existsb (λ set, has set v) sets = true →
  (scanSets sets v node m).1 = true.
Proof.
  induction sets as [|set sets IH]; simpl; [discriminate|].
  destruct (has set v); simpl; [reflexivity | exact IH].
Qed.

(** A value that is in one of the sets and not yet in [mutual]: accepted. *)
Lemma emitted_sets_fresh (pos : Span) (q l : Literal)
    (sets : list (list string)) (m : gmap string Node) :
  getFirst symbols (literal_value q) = Some (Static (Sets sets)) →
  m !! literal_value l = None →
  existsb (λ set, has set (literal_value l)) sets = true →
  emitted' m (QualifiedValueNode pos q (LiteralNode l)) = [].
Proof.
  intros Hq Hm Hfound.
  unfold emitted, visitQuery, checkQualifiedValue. simpl. rewrite Hq, Hm.
  pose proof (scanSets_found sets (literal_value l)
                (QualifiedValueNode pos q (LiteralNode l)) m Hfound) as Hs.
  destruct (scanSets _ _ _ _) as [found m']. simpl in Hs. subst found.
  reflexivity.
Qed.

Lemma mutualAfter_sets_fresh (pos : Span) (q l : Literal)
    (before : list (list string)) (set : list string)
    (after : list (list string)) (m : gmap string Node) :
  getFirst symbols (literal_value q)
    = Some (Static (Sets (before ++ set :: after))) →
  forallb (λ other, negb (has other (literal_value l))) before = true →
  has set (literal_value l) = true →
  m !! literal_value l = None →
  mutualAfter' m (QualifiedValueNode pos q (LiteralNode l))
  = register (literal_value l) (QualifiedValueNode pos q (LiteralNode l)) set m.
Proof.
  intros Hq Hbefore Hset Hm.
  unfold mutualAfter, visitQuery, checkQualifiedValue. simpl. rewrite Hq, Hm.
  by rewrite (scanSets_first before set after _ _ m Hbefore Hset).
Qed.

(** A value already in [mutual]: the conflict, and nothing else happens. *)
Lemma visit_sets_conflict (pos : Span) (q l : Literal)
    (sets : list (list string)) (m : gmap string Node) (first : Node) :
  getFirst symbols (literal_value q) = Some (Static (Sets sets)) →
  m !! literal_value l = Some first →
  emitted' m (QualifiedValueNode pos q (LiteralNode l))
  = [mkError (QualifiedValueNode pos q (LiteralNode l)) conflictMessage (Some first)]
  ∧ mutualAfter' m (QualifiedValueNode pos q (LiteralNode l)) = m.
Proof.
  intros Hq Hm.
  unfold emitted, mutualAfter, visitQuery, checkQualifiedValue. simpl.
  by rewrite Hq, Hm.
Qed.

(** A neutral stretch of the walk changes neither [mutual] nor the
    conflicts. *)
Lemma neutral_stretch (l : list Node) (rest : list Node) (m : gmap string Node) :
  forallb (neutral symbols) l = true →
  conflicts (emittedAll' m (concat (map walk l) ++ rest))
  = conflicts (emittedAll' m rest)
  ∧ mutualAfterAll' m (concat (map walk l) ++ rest) = mutualAfterAll' m rest.
Proof.
  intros Hl. apply neutral_concat in Hl.
  destruct (foldl_visitQuery_neutral typeText sortValues symbols _ m Hl)
    as [Hm Hc].
  by rewrite emittedAll_app, mutualAfterAll_app, conflicts_app, Hm, Hc.
Qed.

(** *** What [mutual] holds *)

Lemma scanSets_result (sets : list (list string)) (v : string) (node : Node)
    (m : gmap string Node) :
  (scanSets sets v node m).2 = m
  ∨ ∃ set, (scanSets sets v node m).2 = register v node set m.
Proof.
  induction sets as [|set sets IH]; simpl; [by left|].
  destruct (has set v); simpl; [right; by exists set | exact IH].
Qed.

Lemma mutualInvariant_mono (visited visited' : list Node) (m : gmap string Node) :
  (∀ c, In c visited → In c visited') →
  mutualInvariant visited m → mutualInvariant visited' m.
Proof. intros Hsub Hm k c Hk. destruct (Hm k c Hk). split; auto. Qed.

Lemma visitQuery_invariant (visited : list Node) (m : gmap string Node) (n : Node) :
  mutualInvariant visited m →
  mutualInvariant (visited ++ [n]) (mutualAfter' m n)
  ∧ Forall (conflictWithin (visited ++ [n])) (emitted' m n).
Proof.
  intros Hm.
  assert (Hgrow : ∀ c, In c visited → In c (visited ++ [n]))
    by (intros c Hc; apply in_or_app; by left).
  destruct (usesMutual symbols n) eqn:Hn.
  2:{ destruct (visitQuery_neutral typeText sortValues symbols m n Hn) as [-> Hc].
      split; [by apply (mutualInvariant_mono visited)|].
      apply Forall_forall. intros e He c Hec.
      assert (In e (conflicts (emitted' m n))) as Hin.
      { apply filter_In. split; [by apply list_elem_of_In|].
        unfold isConflict. by rewrite Hec. }
      rewrite Hc in Hin. destruct Hin. }
  destruct n as [| | | | | |pos q value| | | | |]; try discriminate.
  unfold usesMutual in Hn.
  destruct (getFirst symbols (literal_value q)) as [[[?|sets]|? ?]|] eqn:Hq;
    try discriminate.
  assert (Hv : valueText (QualifiedValueNode pos q value)
               = match value with LiteralNode l => literal_value l | _ => "" end)
    by by destruct value.
  unfold mutualAfter, emitted, visitQuery, checkQualifiedValue.
  simpl. rewrite Hq. revert Hv.
  generalize (match value with LiteralNode l => literal_value l | _ => "" end).
  intros v Hv.
  destruct (m !! v) as [first|] eqn:Hfirst; simpl.
  - split; [by apply (mutualInvariant_mono visited)|].
    constructor; [|constructor].
    intros c [= <-]. simpl err_node. rewrite Hv.
    destruct (Hm _ _ Hfirst). split; auto.
  - pose proof (scanSets_result sets v (QualifiedValueNode pos q value) m) as Hres.
    destruct (scanSets sets v (QualifiedValueNode pos q value) m) as [found m'].
    simpl in Hres.
    assert (Hm' : mutualInvariant (visited ++ [QualifiedValueNode pos q value]) m').
    { destruct Hres as [-> | [set ->]]; [by apply (mutualInvariant_mono visited)|].
      intros k c. rewrite register_lookup.
      destruct (has set k && negb (String.eqb k v)) eqn:Hk.
      - intros [= <-]. split; [apply in_or_app; right; by left|].
        apply andb_true_iff in Hk as [_ Hk]. apply negb_true_iff in Hk.
        apply String.eqb_neq in Hk. congruence.
      - intros Hc. destruct (Hm k c Hc). split; auto. }
    destruct found; simpl.
    + split; [exact Hm' | constructor].
    + split; [by apply (mutualInvariant_mono visited)|].
      constructor; [|constructor]. intros c. discriminate.
Qed.

Lemma foldl_visitQuery_invariant (l : list Node) (visited : list Node)
    (m : gmap string Node) :
  mutualInvariant visited m →
  Forall (conflictWithin (visited ++ l)) (emittedAll' m l).
Proof.
  revert visited m. induction l as [|n l IH]; intros visited m Hm; [constructor|].
  rewrite emittedAll_cons.
  destruct (visitQuery_invariant visited m n Hm) as [Hm' He].
  apply Forall_app. split.
  - eapply Forall_impl; [exact He|].
    intros e Hc c Hec. destruct (Hc c Hec) as [Hin Hne]. split; [|exact Hne].
    apply in_app_or in Hin as [Hin | [<- | []]]; apply in_or_app;
      [by left | right; by left].
  - specialize (IH (visited ++ [n]) _ Hm').
    by rewrite <- app_assoc in IH.
Qed.

(** *** Who registers what *)

Lemma scanSets_firstSet (sets : list (list string)) (v : string) (node : Node)
    (m : gmap string Node) :
  scanSets sets v node m
  = match firstSet sets v with
    | Some set => (true, register v node set m)
    | None => (false, m)
    end.
Proof.
  unfold firstSet. induction sets as [|set sets IH]; simpl; [reflexivity|].
  by destruct (has set v).
Qed.

(** One visit of a qualified value whose qualifier carries value sets. *)
Lemma visit_exclusive (m : gmap string Node) (pos : Span) (q : Literal)
    (value : Node) (sets : list (list string)) :
  getFirst symbols (literal_value q) = Some (Static (Sets sets)) →
  emitted' m (QualifiedValueNode pos q value)
  = match m !! valueText (QualifiedValueNode pos q value),
          firstSet sets (valueText (QualifiedValueNode pos q value)) with
    | Some first, _ =>
        [mkError (QualifiedValueNode pos q value) conflictMessage (Some first)]
    | None, Some _ => []
    | None, None => [mkError value (unknownValueMessage sets) None]
    end
  ∧ mutualAfter' m (QualifiedValueNode pos q value)
    = match m !! valueText (QualifiedValueNode pos q value),
            firstSet sets (valueText (QualifiedValueNode pos q value)) with
      | None, Some set =>
          register (valueText (QualifiedValueNode pos q value))
                   (QualifiedValueNode pos q value) set m
      | _, _ => m
      end.
Proof.
  intros Hq.
  assert (Hv : valueText (QualifiedValueNode pos q value)
               = match value with LiteralNode l => literal_value l | _ => "" end)
    by by destruct value.
  unfold mutualAfter, emitted, visitQuery, checkQualifiedValue.
  simpl bucket. simpl mutual. cbv beta iota. rewrite Hq, Hv.
  generalize (match value with LiteralNode l => literal_value l | _ => "" end).
  intros v.
  destruct (m !! v); [by split|].
  rewrite scanSets_firstSet.
  by destruct (firstSet sets v).
Qed.

(** After a visit, a key of [mutual] holds what it held before, or the
    visited node, which then excludes the key and was itself accepted. *)
Lemma lookup_after_visit (m : gmap string Node) (n : Node) (k : string) :
  mutualAfter' m n !! k = m !! k
  ∨ (mutualAfter' m n !! k = Some n
     ∧ excludes symbols n k = true
     ∧ m !! valueText n = None).
Proof.
  destruct (usesMutual symbols n) eqn:Hn.
  2:{ left. by destruct (visitQuery_neutral typeText sortValues symbols m n Hn)
        as [-> _]. }
  destruct n as [| | | | | |pos q value| | | | |]; try discriminate.
  unfold usesMutual in Hn. unfold excludes.
  destruct (getFirst symbols (literal_value q)) as [[[?|sets]|? ?]|] eqn:Hq;
    try discriminate.
  destruct (visit_exclusive m pos q value sets Hq) as [_ ->].
  destruct (m !! valueText (QualifiedValueNode pos q value)) eqn:Hm; [by left|].
  destruct (firstSet sets (valueText (QualifiedValueNode pos q value)))
    as [set|] eqn:Hset; [|by left].
  rewrite register_lookup.
  destruct (has set k && negb (String.eqb k _)) eqn:Hk; [by right | by left].
Qed.

Lemma lookup_after_walk (l : list Node) (m : gmap string Node) (k : string) :
  mutualAfterAll' m l !! k = m !! k
  ∨ ∃ c, In c l ∧ mutualAfterAll' m l !! k = Some c ∧ excludes symbols c k = true.
Proof.
  revert m. induction l as [|n l IH]; intros m; [by left|].
  rewrite mutualAfterAll_cons.
  destruct (IH (mutualAfter' m n)) as [E | (c & Hc & E & He)]; rewrite E.
  - destruct (lookup_after_visit m n k) as [E' | (E' & He & _)]; rewrite E'.
    + by left.
    + right. exists n. split; [by left | by split].
  - right. exists c. split; [by right | by split].
Qed.

(** A stretch of the walk none of whose nodes excludes [k] leaves the entry
    of [k] alone. *)
Lemma lookup_untouched (l : list Node) (m : gmap string Node) (k : string) :
  forallb (λ x, negb (excludes symbols x k)) l = true →
  mutualAfterAll' m l !! k = m !! k.
Proof.
  intros Hl.
  destruct (lookup_after_walk l m k) as [E | (c & Hc & _ & He)]; [exact E|].
  rewrite forallb_forall in Hl. specialize (Hl c Hc). by rewrite He in Hl.
Qed.

Lemma excludes_differs (c : Node) (k : string) :
  excludes symbols c k = true → valueText c ≠ k.
Proof.
  unfold excludes. destruct c as [| | | | | |pos q value| | | | |]; try discriminate.
  destruct (getFirst symbols (literal_value q)) as [[[?|sets]|? ?]|];
    try discriminate.
  destruct (firstSet sets _) as [set|]; [|discriminate].
  intros H. apply andb_true_iff in H as [_ H]. apply negb_true_iff in H.
  apply String.eqb_neq in H. congruence.
Qed.

Lemma excludes_usesMutual (c : Node) (k : string) :
  excludes symbols c k = true → usesMutual symbols c = true.
Proof.
  unfold excludes, usesMutual.
  destruct c as [| | | | | |pos q value| | | | |]; try discriminate.
  by destruct (getFirst symbols (literal_value q)) as [[[?|sets]|? ?]|].
Qed.

(** A diagnostic with a conflicting node comes from the visit of a qualified
    value whose text is a key of [mutual], and names what the key holds. *)
Lemma conflict_of_visit (m : gmap string Node) (n : Node) (e : ValidationError)
    (c : Node) :
  In e (emitted' m n) → err_conflictNode e = Some c →
  e = mkError n conflictMessage (Some c)
  ∧ usesMutual symbols n = true
  ∧ m !! valueText n = Some c.
Proof.
  intros He Hc.
  destruct (usesMutual symbols n) eqn:Hn.
  2:{ destruct (visitQuery_neutral typeText sortValues symbols m n Hn) as [_ Hnone].
      assert (In e (conflicts (emitted' m n))) as Hin.
      { apply filter_In. split; [exact He|]. unfold isConflict. by rewrite Hc. }
      rewrite Hnone in Hin. destruct Hin. }
  destruct n as [| | | | | |pos q value| | | | |]; try discriminate.
  unfold usesMutual in Hn.
  destruct (getFirst symbols (literal_value q)) as [[[?|sets]|? ?]|] eqn:Hq;
    try discriminate.
  destruct (visit_exclusive m pos q value sets Hq) as [E _]. rewrite E in He.
  destruct (m !! valueText (QualifiedValueNode pos q value)) as [first|].
  - destruct He as [<- | []]. simpl in Hc. injection Hc as ->. by repeat split.
  - destruct (firstSet sets _); [destruct He|].
    destruct He as [<- | []]. discriminate.
Qed.

Lemma registered_visit (visited : list Node) (m : gmap string Node) (n : Node) :
  registered symbols visited m →
  registered symbols (visited ++ [n]) (mutualAfter' m n).
Proof.
  intros Hm k c Hk.
  destruct (lookup_after_visit m n k) as [E | (E & He & _)]; rewrite E in Hk.
  - destruct (Hm k c Hk). split; [apply in_or_app; by left | done].
  - injection Hk as <-. split; [apply in_or_app; right; by left | done].
Qed.

(** Every diagnostic of a walk that names a conflicting node: its message
    is the conflict message, it is attached to a visited qualified value of a
    qualifier with value sets, and the node it names was visited before and
    excludes the text of the node it is attached to. *)
Lemma conflicts_of_walk (l : list Node) (visited : list Node)
    (m : gmap string Node) (e : ValidationError) (c : Node) :
  registered symbols visited m →
  In e (emittedAll' m l) → err_conflictNode e = Some c →
  err_message e = conflictMessage
  ∧ usesMutual symbols (err_node e) = true
  ∧ In (err_node e) l
  ∧ In c (visited ++ l)
  ∧ excludes symbols c (valueText (err_node e)) = true.
Proof.
  revert visited m. induction l as [|n l IH]; intros visited m Hm He Hc;
    [destruct He|].
  rewrite emittedAll_cons in He. apply in_app_or in He as [He | He].
  - destruct (conflict_of_visit m n e c He Hc) as (-> & Hn & Hlook).
    destruct (Hm _ _ Hlook) as [Hin Hex]. simpl.
    split; [reflexivity|]. split; [exact Hn|]. split; [by left|].
    split; [apply in_or_app; by left | exact Hex].
  - destruct (IH (visited ++ [n]) (mutualAfter' m n) (registered_visit _ _ _ Hm)
                He Hc) as (H1 & H2 & H3 & H4 & H5).
    split; [exact H1|]. split; [exact H2|]. split; [by right|].
    split; [by rewrite <- app_assoc in H4 | exact H5].
Qed.

(** An accepted value and a later value it excludes, anywhere in a walk
    that starts from an empty map. *)
Lemma later_excluded_conflicts (pre mid post : list Node) (n1 n2 : Node) :
  usesMutual symbols n2 = true →
  excludes symbols n1 (valueText n2) = true →
  forallb (λ x, negb (excludes symbols x (valueText n1))) pre = true →
  ∃ c, (c = n1 ∨ In c mid ∧ excludes symbols c (valueText n2) = true)
       ∧ In (mkError n2 conflictMessage (Some c))
            (emittedAll' ∅ (pre ++ n1 :: mid ++ n2 :: post))
       ∧ (forallb (λ x, negb (excludes symbols x (valueText n2))) mid = true →
          c = n1).
Proof.
  intros Hn2 Hex Hpre.
  set (m0 := mutualAfterAll' ∅ pre).
  assert (Hm0 : m0 !! valueText n1 = None).
  { unfold m0. rewrite (lookup_untouched pre ∅ _ Hpre). apply lookup_empty. }
  assert (Hm1 : mutualAfter' m0 n1 !! valueText n2 = Some n1).
  { pose proof Hex as Hex'. unfold excludes in Hex'.
    destruct n1 as [| | | | | |p1 q1 value1| | | | |]; try discriminate.
    destruct (getFirst symbols (literal_value q1)) as [[[?|sets]|? ?]|] eqn:Hq;
      try discriminate.
    destruct (visit_exclusive m0 p1 q1 value1 sets Hq) as [_ ->].
    rewrite Hm0.
    destruct (firstSet sets _) as [set|]; [|discriminate].
    by rewrite register_lookup, Hex'. }
  set (m2 := mutualAfterAll' (mutualAfter' m0 n1) mid).
  assert (Hm2 : ∃ c, (c = n1 ∨ In c mid ∧ excludes symbols c (valueText n2) = true)
                     ∧ m2 !! valueText n2 = Some c
                     ∧ (forallb (λ x, negb (excludes symbols x (valueText n2))) mid
                        = true → c = n1)).
  { destruct (lookup_after_walk mid (mutualAfter' m0 n1) (valueText n2))
      as [E | (c & Hc & E & He)].
    - exists n1. split; [by left|]. split; [|done]. unfold m2. by rewrite E.
    - exists c. split; [right; by split|]. split; [exact E|].
      intros Hmid. rewrite forallb_forall in Hmid. specialize (Hmid c Hc).
      by rewrite He in Hmid. }
  destruct Hm2 as (c & Hc & Hlook & Hsame).
  exists c. split; [exact Hc|]. split; [|exact Hsame].
  replace (pre ++ n1 :: mid ++ n2 :: post)
    with ((pre ++ n1 :: mid) ++ n2 :: post) by (by rewrite <- app_assoc).
  rewrite emittedAll_app, emittedAll_cons.
  apply in_or_app. right. apply in_or_app. left.
  rewrite mutualAfterAll_app, mutualAfterAll_cons. fold m0. fold m2.
  destruct n2 as [| | | | | |p2 q2 value2| | | | |]; try discriminate.
  unfold usesMutual in Hn2.
  destruct (getFirst symbols (literal_value q2)) as [[[?|sets]|? ?]|] eqn:Hq;
    try discriminate.
  destruct (visit_exclusive m2 p2 q2 value2 sets Hq) as [-> _].
  rewrite Hlook. by left.
Qed.

Section TwoOccurrences.

(** Two occurrences of one set-valued qualifier, among nodes that do not
    touch [mutual]. *)
Variables (before : list (list string)) (set : list string)
          (after : list (list string)).
Variables (p1 p2 : Span) (q1 q2 l1 l2 : Literal).
Variables (pre mid post : list Node).

Local Abbreviation n1 := (QualifiedValueNode p1 q1 (LiteralNode l1)).
Local Abbreviation n2 := (QualifiedValueNode p2 q2 (LiteralNode l2)).

Hypothesis Hq1 :
  getFirst symbols (literal_value q1)
    = Some (Static (Sets (before ++ set :: after))).
Hypothesis Hq2 : literal_value q2 = literal_value q1.
Hypothesis Hbefore :
  forallb (λ other, negb (has other (literal_value l1))) before = true.
Hypothesis Hl1 : has set (literal_value l1) = true.
Hypothesis Hl2 : has set (literal_value l2) = true.
Hypothesis Hpre : forallb (neutral symbols) pre = true.
Hypothesis Hmid : forallb (neutral symbols) mid = true.
Hypothesis Hpost : forallb (neutral symbols) post = true.

Lemma occurrences_neutral_children :
  forallb (neutral symbols) [LiteralNode q1; LiteralNode l1] = true
  ∧ forallb (neutral symbols) [LiteralNode q2; LiteralNode l2] = true.
Proof. split; reflexivity. Qed.

Lemma second_in_sets :
  existsb (λ s, has s (literal_value l2)) (before ++ set :: after) = true.
Proof.
  rewrite existsb_app. simpl. rewrite Hl2. by rewrite orb_true_r.
Qed.

Lemma first_in_sets :
  existsb (λ s, has s (literal_value l1)) (before ++ set :: after) = true.
Proof.
  rewrite existsb_app. simpl. rewrite Hl1. by rewrite orb_true_r.
Qed.

(** From the second occurrence on, given the map it meets. *)
Lemma from_second (m : gmap string Node) :
  conflicts (emittedAll' m (concat (map walk (n2 :: post))))
  = match m !! literal_value l2 with
    | Some first => [mkError n2 conflictMessage (Some first)]
    | None => []
    end.
Proof.
  assert (Hq2' : getFirst symbols (literal_value q2)
                 = Some (Static (Sets (before ++ set :: after))))
    by (by rewrite Hq2).
  simpl. rewrite emittedAll_cons, conflicts_app.
  change (LiteralNode q2 :: LiteralNode l2 :: concat (map walk post))
    with (concat (map walk [LiteralNode q2; LiteralNode l2])
            ++ concat (map walk post)).
  destruct (neutral_stretch [LiteralNode q2; LiteralNode l2]
              (concat (map walk post))
              (mutualAfter' m n2) (proj2 occurrences_neutral_children))
    as [-> _].
  rewrite <- (app_nil_r (concat (map walk post))).
  destruct (neutral_stretch post [] (mutualAfter' m n2) Hpost) as [-> _].
  change (conflicts (emittedAll' (mutualAfter' m n2) [])) with (@nil ValidationError).
  rewrite app_nil_r.
  destruct (m !! literal_value l2) as [first|] eqn:Hm.
  - destruct (visit_sets_conflict p2 q2 l2 _ m first Hq2' Hm) as [-> _].
    reflexivity.
  - by rewrite (emitted_sets_fresh p2 q2 l2 _ m Hq2' Hm second_in_sets).
Qed.

(** Up to and including the first occurrence, from an empty map. *)
Lemma through_first (rest : list Node) :
  conflicts (emittedAll' ∅ (concat (map walk (pre ++ n1 :: mid)) ++ rest))
  = conflicts (emittedAll' (register (literal_value l1) n1 set ∅) rest).
Proof.
  rewrite map_app, concat_app, <- app_assoc.
  destruct (neutral_stretch pre (concat (map walk (n1 :: mid)) ++ rest) ∅ Hpre)
    as [-> _].
  simpl. rewrite emittedAll_cons, conflicts_app.
  rewrite (emitted_sets_fresh p1 q1 l1 _ ∅ Hq1 (lookup_empty _) first_in_sets).
  rewrite (mutualAfter_sets_fresh p1 q1 l1 before set after ∅ Hq1 Hbefore Hl1
             (lookup_empty _)).
  simpl.
  change (LiteralNode q1 :: LiteralNode l1 :: concat (map walk mid) ++ rest)
    with (concat (map walk [LiteralNode q1; LiteralNode l1])
            ++ concat (map walk mid) ++ rest).
  destruct (neutral_stretch [LiteralNode q1; LiteralNode l1]
              (concat (map walk mid) ++ rest)
              (register (literal_value l1) n1 set ∅)
              (proj1 occurrences_neutral_children)) as [-> _].
  by destruct (neutral_stretch mid rest (register (literal_value l1) n1 set ∅) Hmid)
    as [-> _].
Qed.

Local Abbreviation dispatched' := (dispatched typeText sortValues symbols).

(** Below the query node itself, the top-level walk meets the two
    occurrences, which it does not dispatch on, and neutral subtrees. *)
Lemma dispatched_items (items : list Node) :
  Forall (λ x, neutral symbols x = true
               ∨ ∃ p q l, x = QualifiedValueNode p q (LiteralNode l)) items →
  conflicts (concat (map dispatched' (concat (map walk items)))) = [].
Proof.
  induction 1 as [|x items Hx _ IH]; [reflexivity|].
  simpl. rewrite map_app, concat_app, conflicts_app, IH, app_nil_r.
  destruct Hx as [Hx | (p & q & l & ->)]; [|reflexivity].
  pose proof (dispatched_neutral_walk typeText sortValues symbols [x]) as H.
  simpl in H. rewrite app_nil_r, Hx in H. by apply H.
Qed.

Lemma neutral_items (l : list Node) :
  forallb (neutral symbols) l = true →
  Forall (λ x, neutral symbols x = true
               ∨ ∃ p q l, x = QualifiedValueNode p q (LiteralNode l)) l.
Proof.
  intros Hl. apply Forall_forall. intros x Hx. left.
  rewrite forallb_forall in Hl. apply Hl. by apply list_elem_of_In.
Qed.

Lemma dispatched_query (pos : Span) (items : list Node) :
  dispatched' (QueryNode pos items) = emittedAll' ∅ (concat (map walk items)).
Proof.
  unfold dispatched, visitDocument. rewrite validateQuery_emitted.
  simpl. by rewrite emittedAll_cons.
Qed.

Lemma conflicts_query_node (pos : Span) (items : list Node) :
  Forall (λ x, neutral symbols x = true
               ∨ ∃ p q l, x = QualifiedValueNode p q (LiteralNode l)) items →
  conflicts (concat (map dispatched' (walk (QueryNode pos items))))
  = conflicts (emittedAll' ∅ (concat (map walk items))).
Proof.
  intros Hitems.
  change (walk (QueryNode pos items))
    with (QueryNode pos items :: concat (map walk items)).
  rewrite map_cons, concat_cons, conflicts_app, dispatched_query.
  by rewrite (dispatched_items items Hitems), app_nil_r.
Qed.

(** The two occurrences as the only nodes of one query that touch [mutual],
    and split over two sibling queries. *)
Lemma two_occurrences (pq pq' : Span) (text : string) :
  let validate := λ doc, validateQueryDocument typeText sortValues doc symbols in
  let one := mkDoc [QueryNode pq (pre ++ n1 :: mid ++ n2 :: post)] text in
  let siblings :=
    mkDoc [QueryNode pq (pre ++ n1 :: mid); QueryNode pq' (n2 :: post)] text in
  (literal_value l1 ≠ literal_value l2 →
   conflicts (validate one) = [mkError n2 conflictMessage (Some n1)])
  ∧ (literal_value l1 = literal_value l2 → conflicts (validate one) = [])
  ∧ conflicts (validate siblings) = [].
Proof.
  intros validate one siblings.
  assert (Hocc : ∀ p q l, neutral symbols (QualifiedValueNode p q (LiteralNode l)) = true
                 ∨ ∃ p' q' l', QualifiedValueNode p q (LiteralNode l)
                               = QualifiedValueNode p' q' (LiteralNode l'))
    by (intros; right; eauto).
  assert (Hfirst : Forall (λ x, neutral symbols x = true
                     ∨ ∃ p q l, x = QualifiedValueNode p q (LiteralNode l))
                     (pre ++ n1 :: mid)).
  { apply Forall_app. split; [by apply neutral_items|].
    constructor; [apply Hocc | by apply neutral_items]. }
  assert (Hsecond : Forall (λ x, neutral symbols x = true
                     ∨ ∃ p q l, x = QualifiedValueNode p q (LiteralNode l))
                     (n2 :: post)).
  { constructor; [apply Hocc | by apply neutral_items]. }
  assert (Hone : conflicts (validate one)
                 = match register (literal_value l1) n1 set ∅ !! literal_value l2 with
                   | Some first => [mkError n2 conflictMessage (Some first)]
                   | None => []
                   end).
  { unfold validate, one. rewrite validateQueryDocument_dispatched.
    change (walkDocument _)
      with (walk (QueryNode pq (pre ++ n1 :: mid ++ n2 :: post)) ++ []).
    rewrite app_nil_r.
    replace (pre ++ n1 :: mid ++ n2 :: post)
      with ((pre ++ n1 :: mid) ++ n2 :: post) by (by rewrite <- app_assoc).
    rewrite conflicts_query_node by (by apply Forall_app).
    rewrite map_app, concat_app, through_first. apply from_second. }
  split; [|split].
  - intros Hne. rewrite Hone, register_lookup, Hl2. simpl.
    destruct (String.eqb_spec (literal_value l2) (literal_value l1)) as [E|_];
      [by symmetry in E | reflexivity].
  - intros Heq. rewrite Hone, register_lookup, Heq, String.eqb_refl.
    by rewrite andb_false_r.
  - unfold validate, siblings. rewrite validateQueryDocument_dispatched.
    change (walkDocument _)
      with (walk (QueryNode pq (pre ++ n1 :: mid))
              ++ walk (QueryNode pq' (n2 :: post)) ++ []).
    rewrite app_nil_r, map_app, concat_app, conflicts_app.
    rewrite !conflicts_query_node by assumption.
    rewrite from_second, lookup_empty, app_nil_r.
    rewrite <- (app_nil_r (concat (map walk (pre ++ n1 :: mid)))).
    by rewrite through_first.
Qed.

End TwoOccurrences.

Local Abbreviation validate doc :=
  (validateQueryDocument typeText sortValues doc symbols).

(** C1 (as amended). What conflicts is decided by [mutual] as it stands when
    a qualified value of a qualifier with value sets is visited.
    In every document, a diagnostic that names a conflicting node carries
    the conflict message, and there is a query node of the document whose
    subtree holds both the node it is attached to and the node it names; the
    named node excludes the value of the other, so the two values differ: a
    value never conflicts with its own repetition, nor with a node that no
    common query encloses.
    In every query of a document, a value that no earlier node of the query
    excludes is accepted, and any later qualified value of a qualifier with
    value sets whose text it excludes gets the conflict diagnostic, which
    names the accepted node itself when no node in between excludes that
    text, and otherwise a node in between that does: the latest registration
    wins.
    When the two occurrences are the only nodes of a one-query document that
    touch [mutual], the second in the set of the first: exactly one
    diagnostic names a conflicting node, on the second occurrence and naming
    the first, when the values differ, and none when they are equal; with
    the two occurrences in two sibling queries, none.
    And for any query at all: a diagnostic that names a conflicting node
    names a node of the same query. *)
Theorem mutual_exclusion_per_query (doc : QueryDocumentNode) :
  (∀ e c,
      In e (validate doc) → err_conflictNode e = Some c →
      err_message e = conflictMessage
      ∧ ∃ query,
          In query (walkDocument doc) ∧ nodeType query = NodeType.Query
          ∧ In (err_node e) (walk query) ∧ In c (walk query)
          ∧ usesMutual symbols (err_node e) = true
          ∧ excludes symbols c (valueText (err_node e)) = true
          ∧ valueText c ≠ valueText (err_node e))
  ∧ (∀ query pre n1 mid n2 post,
        In query (walkDocument doc) → nodeType query = NodeType.Query →
        tail (walk query) = pre ++ n1 :: mid ++ n2 :: post →
        usesMutual symbols n2 = true →
        excludes symbols n1 (valueText n2) = true →
        forallb (λ x, negb (excludes symbols x (valueText n1))) pre = true →
        ∃ c, (c = n1 ∨ In c mid ∧ excludes symbols c (valueText n2) = true)
             ∧ In (mkError n2 conflictMessage (Some c)) (validate doc)
             ∧ (forallb (λ x, negb (excludes symbols x (valueText n2))) mid = true →
                c = n1))
  ∧ (∀ before set after p1 p2 q1 q2 l1 l2 pre mid post pq pq' text,
        let n1 := QualifiedValueNode p1 q1 (LiteralNode l1) in
        let n2 := QualifiedValueNode p2 q2 (LiteralNode l2) in
        let one := mkDoc [QueryNode pq (pre ++ n1 :: mid ++ n2 :: post)] text in
        let siblings :=
          mkDoc [QueryNode pq (pre ++ n1 :: mid); QueryNode pq' (n2 :: post)] text in
        getFirst symbols (literal_value q1)
          = Some (Static (Sets (before ++ set :: after))) →
        literal_value q2 = literal_value q1 →
        forallb (λ other, negb (has other (literal_value l1))) before = true →
        has set (literal_value l1) = true →
        has set (literal_value l2) = true →
        forallb (neutral symbols) pre = true →
        forallb (neutral symbols) mid = true →
        forallb (neutral symbols) post = true →
        (literal_value l1 ≠ literal_value l2 →
         conflicts (validate one) = [mkError n2 conflictMessage (Some n1)])
        ∧ (literal_value l1 = literal_value l2 → conflicts (validate one) = [])
        ∧ conflicts (validate siblings) = [])
  ∧ ∀ query,
      Forall (conflictWithin (walk query))
             (validateQuery typeText sortValues query [] symbols).
Proof.
  split; [|split; [|split]].
  - intros e c He Hc.
    rewrite validateQueryDocument_dispatched in He.
    apply in_concat in He as (d & Hd & He).
    apply in_map_iff in Hd as (x & <- & Hx).
    destruct x as [| | | | | | |pos nodes| | |pos name value|];
      try (by destruct He).
    + unfold dispatched, visitDocument in He.
      rewrite validateQuery_emitted in He. simpl app in He.
      assert (Hempty : registered symbols [] ∅)
        by (intros k c' Hk; by rewrite lookup_empty in Hk).
      destruct (conflicts_of_walk (walk (QueryNode pos nodes)) [] ∅ e c
                  Hempty He Hc) as (H1 & H2 & H3 & H4 & H5).
      split; [exact H1|]. exists (QueryNode pos nodes).
      split; [exact Hx|]. split; [reflexivity|]. split; [exact H3|].
      split; [exact H4|]. split; [exact H2|]. split; [exact H5|].
      by apply excludes_differs.
    + unfold dispatched, visitDocument, validateVariableDefinition in He.
      rewrite foldl_visitDefinition_frame in He. simpl app in He.
      assert (In e (conflicts (concat (map (visitDefinition name []) (walk value)))))
        as Hin.
      { apply filter_In. split; [exact He|]. unfold isConflict. by rewrite Hc. }
      rewrite visitDefinition_conflicts in Hin. destruct Hin.
  - intros query pre n1 mid n2 post Hquery Hkind Hwalk Hn2 Hex Hpre.
    destruct query as [| | | | | | |pos nodes| | | |]; try discriminate.
    assert (Hpre' : forallb (λ x, negb (excludes symbols x (valueText n1)))
                            (QueryNode pos nodes :: pre) = true)
      by (simpl; exact Hpre).
    destruct (later_excluded_conflicts (QueryNode pos nodes :: pre) mid post n1 n2
                Hn2 Hex Hpre') as (c & Hc & Hin & Hsame).
    exists c. split; [exact Hc|]. split; [|exact Hsame].
    rewrite validateQueryDocument_dispatched.
    apply in_concat.
    exists (dispatched typeText sortValues symbols (QueryNode pos nodes)).
    split; [by apply in_map|].
    unfold dispatched, visitDocument.
    rewrite validateQuery_emitted, (walk_first (QueryNode pos nodes)), Hwalk.
    exact Hin.
  - intros before set after p1 p2 q1 q2 l1 l2 pre mid post pq pq' text
           n1 n2 one siblings Hq1 Hq2 Hbefore Hl1 Hl2 Hpre Hmid Hpost.
    exact (two_occurrences before set after p1 p2 q1 q2 l1 l2 pre mid post
             Hq1 Hq2 Hbefore Hl1 Hl2 Hpre Hmid Hpost pq pq' text).
  - intros query. rewrite validateQuery_emitted.
    apply (foldl_visitQuery_invariant (walk query) [] ∅).
    intros k c Hk. by rewrite lookup_empty in Hk.
Qed.

End MutualExclusion.

(** ** The rules of [validateQuery], node kind by node kind *)

Section Rules.

Variable typeText : ValueType.t → string.
Variable sortValues : list string.
Variable symbols : SymbolTable.

Local Abbreviation emittedAll' := (emittedAll typeText sortValues symbols).
Local Abbreviation mutualAfterAll' := (mutualAfterAll typeText sortValues symbols).
Local Abbreviation emitted' := (emitted typeText sortValues symbols).
Local Abbreviation mutualAfter' := (mutualAfter typeText sortValues symbols).
Local Abbreviation isUser' := (isUser symbols).

Lemma emitted_literal (m : gmap string Node) (l : Literal) :
  emitted' m (LiteralNode l) = [] ∧ mutualAfter' m (LiteralNode l) = m.
Proof. split; reflexivity. Qed.

Lemma emitted_variable (m : gmap string Node) (var : VariableName) :
  emitted' m (VariableNameNode var)
  = (if isUser' (variable_value var) then []
     else [mkError (VariableNameNode var) unknownVariableMessage None])
  ∧ mutualAfter' m (VariableNameNode var) = m.
Proof.
  unfold emitted, mutualAfter, visitQuery, checkVariableName, isUser. simpl.
  destruct (getFirst symbols (variable_value var)) as [[?|? ?]|]; split; reflexivity.
Qed.

(** C2 (as amended). A qualified value whose qualifier name is absent from
    the table, or bound to a symbol that is not static: the visit of the
    node appends exactly one diagnostic, "Unknown qualifier: '<name>'" on
    the qualifier node, and leaves [mutual] alone, so none of the
    qualifier's own checks of the value runs.  The walk then goes on into
    the value subtree, whose nodes are checked by the rules of their own
    kinds, from the same map. *)
Theorem unknown_qualifier_then_value (m : gmap string Node) (pos : Span)
    (q : Literal) (v : Node) :
  (getFirst symbols (literal_value q) = None
   ∨ ∃ type value, getFirst symbols (literal_value q) = Some (User type value)) →
  emitted' m (QualifiedValueNode pos q v)
  = [mkError (LiteralNode q) (unknownQualifierMessage (literal_value q)) None]
  ∧ mutualAfter' m (QualifiedValueNode pos q v) = m
  ∧ emittedAll' m (walk (QualifiedValueNode pos q v))
    = mkError (LiteralNode q) (unknownQualifierMessage (literal_value q)) None
        :: emittedAll' m (walk v)
  ∧ mutualAfterAll' m (walk (QualifiedValueNode pos q v)) = mutualAfterAll' m (walk v).
Proof.
  intros Hq.
  assert (Hvisit :
    emitted' m (QualifiedValueNode pos q v)
    = [mkError (LiteralNode q) (unknownQualifierMessage (literal_value q)) None]
    ∧ mutualAfter' m (QualifiedValueNode pos q v) = m).
  { unfold emitted, mutualAfter, visitQuery, checkQualifiedValue. simpl.
    destruct Hq as [-> | (type & value & ->)]; split; reflexivity. }
  destruct Hvisit as [He Hm].
  change (walk (QualifiedValueNode pos q v))
    with (QualifiedValueNode pos q v :: LiteralNode q :: walk v).
  rewrite !emittedAll_cons, !mutualAfterAll_cons, He, Hm.
  destruct (emitted_literal m q) as [-> ->].
  repeat split; reflexivity.
Qed.

(** C3 (as amended). A variable name visited by [validateQuery] gets
    "Unknown variable" exactly when its name resolves to no symbol or to a
    symbol that is not a user variable, wherever it stands.  As the value of
    a qualified value with a scalar qualifier it is first checked by the
    qualifier's rule ("Invalid value, expected <type>", on the same node)
    and then visited itself, so an unresolved variable there gets both
    diagnostics. *)
Theorem unknown_variable_everywhere (m : gmap string Node) (var : VariableName) :
  (emitted' m (VariableNameNode var)
   = if isUser' (variable_value var) then []
     else [mkError (VariableNameNode var) unknownVariableMessage None])
  ∧ ∀ pos q type,
      getFirst symbols (literal_value q) = Some (Static (Scalar type)) →
      emittedAll' m (walk (QualifiedValueNode pos q (VariableNameNode var)))
      = (match getFirst symbols (variable_value var) with
         | Some (User vtype _) =>
             if bool_decide (vtype = type) then []
             else [mkError (VariableNameNode var) (invalidValueMessage typeText type) None]
         | _ => [mkError (VariableNameNode var) (invalidValueMessage typeText type) None]
         end)
        ++ (if isUser' (variable_value var) then []
            else [mkError (VariableNameNode var) unknownVariableMessage None]).
Proof.
  split; [apply emitted_variable|].
  intros pos q type Hq.
  change (walk (QualifiedValueNode pos q (VariableNameNode var)))
    with [QualifiedValueNode pos q (VariableNameNode var); LiteralNode q;
          VariableNameNode var].
  assert (Hm : mutualAfter' m (QualifiedValueNode pos q (VariableNameNode var)) = m).
  { unfold mutualAfter, visitQuery, checkQualifiedValue. simpl. rewrite Hq.
    destruct (getFirst symbols (variable_value var)) as [[?|vtype ?]|];
      try reflexivity.
    by destruct (bool_decide (vtype = type)). }
  rewrite !emittedAll_cons, Hm.
  destruct (emitted_literal m q) as [-> ->].
  destruct (emitted_variable m var) as [-> _].
  change (emittedAll' m []) with (@nil ValidationError).
  rewrite app_nil_r. simpl. f_equal.
  unfold emitted, visitQuery, checkQualifiedValue. simpl. rewrite Hq.
  destruct (getFirst symbols (variable_value var)) as [[?|vtype ?]|];
    try reflexivity.
  by destruct (bool_decide (vtype = type)).
Qed.

Lemma isNumberOrDateLike_spec (v : Node) (what : NodeType.t) :
  isNumberOrDateLike v what = true ↔ likeSpec what v.
Proof.
  unfold isNumberOrDateLike, likeSpec.
  destruct (bool_decide (nodeType v = what)) eqn:Hv.
  { apply bool_decide_eq_true in Hv. split; [by left | reflexivity]. }
  apply bool_decide_eq_false in Hv.
  split.
  - intros H. right.
    destruct v; try discriminate.
    + left. apply bool_decide_eq_true in H. eauto.
    + right. apply orb_true_iff in H as [H|H].
      * destruct open as [x|]; [|discriminate]. simpl in H.
        apply bool_decide_eq_true in H. by exists pos, (Some x), close, x; auto.
      * destruct close as [x|]; [|discriminate]. simpl in H.
        apply bool_decide_eq_true in H. by exists pos, open, (Some x), x; auto.
  - intros [H | [(pos & cmp & x & -> & Hx) | (pos & o & c & x & -> & Hoc & Hx)]].
    + done.
    + by apply bool_decide_eq_true.
    + apply orb_true_iff.
      destruct Hoc as [-> | ->]; [left | right]; simpl;
        by apply bool_decide_eq_true.
Qed.

(** C5 (as amended). For a qualified value whose qualifier is static and
    expects the scalar type Date, and whose value is not a variable name,
    the qualifier's rule appends "Invalid value, expected date" on the value
    node exactly when the value is not date-like, and nothing otherwise; a
    literal is never date-like.  The same holds for Number with "Invalid
    value, expected number".  (A variable name in that place is judged by
    the declared type of the variable instead.) *)
Theorem scalar_qualifier_value (m : gmap string Node) (pos : Span)
    (q : Literal) (v : Node) :
  nodeType v ≠ NodeType.VariableName →
  (getFirst symbols (literal_value q) = Some (Static (Scalar ValueType.Date)) →
   emitted' m (QualifiedValueNode pos q v)
   = if isNumberOrDateLike v NodeType.Date then []
     else [mkError v "Invalid value, expected date" None])
  ∧ (getFirst symbols (literal_value q) = Some (Static (Scalar ValueType.Number)) →
     emitted' m (QualifiedValueNode pos q v)
     = if isNumberOrDateLike v NodeType.Number then []
       else [mkError v "Invalid value, expected number" None])
  ∧ (∀ what, isNumberOrDateLike v what = true ↔ likeSpec what v)
  ∧ (∀ l, v = LiteralNode l →
          isNumberOrDateLike v NodeType.Date = false
          ∧ isNumberOrDateLike v NodeType.Number = false).
Proof.
  intros Hv. repeat split.
  - intros Hq. unfold emitted, visitQuery, checkQualifiedValue. simpl. rewrite Hq.
    destruct v; try done; simpl;
      by destruct (isNumberOrDateLike _ _).
  - intros Hq. unfold emitted, visitQuery, checkQualifiedValue. simpl. rewrite Hq.
    destruct v; try done; simpl;
      by destruct (isNumberOrDateLike _ _).
  - by apply isNumberOrDateLike_spec.
  - by apply isNumberOrDateLike_spec.
  - by subst v.
  - by subst v.
Qed.

(** Diagnostics of a walk, node by node. *)
Lemma emittedAll_In (e : ValidationError) (n : Node) (l : list Node)
    (m : gmap string Node) :
  In n l → (∀ m', In e (emitted' m' n)) → In e (emittedAll' m l).
Proof.
  intros Hn He. revert m.
  induction l as [|x l IH]; intros m; [destruct Hn|].
  rewrite emittedAll_cons. apply in_or_app.
  destruct Hn as [-> | Hn]; [left; apply He | right; by apply IH].
Qed.

(** X18. A placeholder node visited by [validateQuery] gets its carried
    message, verbatim and on the node itself, as the only effect of the
    visit; hence every placeholder in the subtree of a query node of the
    document is reported by [validateQueryDocument]. *)
Theorem missing_reported_within_query (pos : Span) (message : string) :
  (∀ m, emitted' m (MissingNode pos message)
        = [mkError (MissingNode pos message) message None]
        ∧ mutualAfter' m (MissingNode pos message) = m)
  ∧ ∀ doc query,
      In query (walkDocument doc) →
      nodeType query = NodeType.Query →
      In (MissingNode pos message) (walk query) →
      In (mkError (MissingNode pos message) message None)
         (validateQueryDocument typeText sortValues doc symbols).
Proof.
  split; [intros m; split; reflexivity|].
  intros doc query Hquery Hkind Hmissing.
  rewrite validateQueryDocument_dispatched.
  apply in_concat. exists (dispatched typeText sortValues symbols query).
  split; [by apply in_map|].
  destruct query; try discriminate.
  unfold dispatched, visitDocument. rewrite validateQuery_emitted.
  apply emittedAll_In with (n := MissingNode pos message); [done|].
  intros m'. by left.
Qed.

Lemma emitted_range (m : gmap string Node) (pos : Span) (o c : option Node) :
  emitted' m (RangeNode pos o c)
  = if mismatched (RangeNode pos o c)
    then [mkError (RangeNode pos o c) rangeMessage None] else [].
Proof.
  unfold emitted, visitQuery, checkRange. simpl.
  destruct o as [o|], c as [c|]; try reflexivity.
  by destruct (bool_decide (nodeType o ≠ nodeType c)).
Qed.



End Rules.

(** ** Variable definitions and the top-level dispatch *)

Section Document.

Variable typeText : ValueType.t → string.
Variable sortValues : list string.
Variable symbols : SymbolTable.

Local Abbreviation dispatched' := (dispatched typeText sortValues symbols).
Local Abbreviation validate doc :=
  (validateQueryDocument typeText sortValues doc symbols).

Lemma visitDefinition_cases (name : VariableName) (n : Node) :
  visitDefinition name [] n
  = if isOrToken n then [mkError n orMessage None]
    else if isSelfReference name n then [mkError n selfReferenceMessage None]
    else [].
Proof.
  destruct n; try reflexivity. by destruct tokenType.
Qed.

(** C8. The definition checker reports "OR is not supported when defining
    a variable" once for each OR token of the definition's value subtree,
    "Cannot reference a variable from its definition" once for each variable
    name of that subtree that equals the defined name, each on the node in
    question and in walk order, and nothing else; a definition without OR
    token and without self-reference yields no diagnostic. *)
Theorem definition_checker (pos : Span) (name : VariableName) (value : Node) :
  let result := validateVariableDefinition (VariableDefinitionNode pos name value) [] in
  List.filter (λ e, String.eqb (err_message e) orMessage) result
  = map (λ n, mkError n orMessage None) (List.filter isOrToken (walk value))
  ∧ List.filter (λ e, String.eqb (err_message e) selfReferenceMessage) result
    = map (λ n, mkError n selfReferenceMessage None)
          (List.filter (isSelfReference name) (walk value))
  ∧ length result
    = length (List.filter isOrToken (walk value))
      + length (List.filter (isSelfReference name) (walk value)).
Proof.
  intros result. subst result. unfold validateVariableDefinition.
  rewrite foldl_visitDefinition_frame. simpl app.
  induction (walk value) as [|n l (IH1 & IH2 & IH3)]; [by repeat split|].
  simpl map. simpl concat. rewrite !List.filter_app, length_app, IH1, IH2, IH3.
  rewrite visitDefinition_cases.
  destruct n as [? [|?]| | | | | | | | | | |var]; simpl; try by repeat split.
  destruct (String.eqb _ _); simpl; repeat split; try reflexivity; lia.
Qed.

Lemma dispatched_other (n : Node) : isDispatch n = false → dispatched' n = [].
Proof. by destruct n. Qed.

Lemma dispatched_none (l : list Node) :
  forallb (λ x, negb (isDispatch x)) l = true →
  concat (map dispatched' l) = [].
Proof.
  induction l as [|n l IH]; simpl; intros Hl; [reflexivity|].
  apply andb_true_iff in Hl as [Hn Hl]. apply negb_true_iff in Hn.
  by rewrite (dispatched_other n Hn), IH.
Qed.

Lemma validate_app (l1 l2 : list Node) (text : string) :
  validate (mkDoc (l1 ++ l2) text)
  = validate (mkDoc l1 text) ++ validate (mkDoc l2 text).
Proof.
  rewrite !validateQueryDocument_dispatched. unfold walkDocument. simpl.
  by rewrite !map_app, !concat_app, map_app, concat_app.
Qed.

Lemma visitDefinition_messages (name : VariableName) (l : list Node) :
  Forall (λ e, err_message e = orMessage ∨ err_message e = selfReferenceMessage)
         (concat (map (visitDefinition name []) l)).
Proof.
  induction l as [|n l IH]; [constructor|].
  simpl. apply Forall_app. split; [|exact IH].
  rewrite visitDefinition_cases.
  destruct (isOrToken n); [constructor; [by left | constructor]|].
  destruct (isSelfReference name n); constructor; [by right | constructor].
Qed.

Lemma emitted_unknown_qualifier (m : gmap string Node) (pos : Span) (q : Literal)
    (v : Node) :
  (getFirst symbols (literal_value q) = None
   ∨ ∃ type value, getFirst symbols (literal_value q) = Some (User type value)) →
  emitted typeText sortValues symbols m (QualifiedValueNode pos q v)
  = [mkError (LiteralNode q) (unknownQualifierMessage (literal_value q)) None].
Proof.
  intros Hq. unfold emitted, visitQuery, checkQualifiedValue. simpl.
  by destruct Hq as [-> | (type & value & ->)].
Qed.

Lemma validate_query_below (doc : QueryDocumentNode) (query : Node)
    (n : Node) (e : ValidationError) :
  In query (walkDocument doc) → nodeType query = NodeType.Query →
  In n (walk query) →
  (∀ m, In e (emitted typeText sortValues symbols m n)) →
  In e (validate doc).
Proof.
  intros Hquery Hkind Hn He.
  rewrite validateQueryDocument_dispatched.
  apply in_concat. exists (dispatched' query). split; [by apply in_map|].
  destruct query; try discriminate.
  unfold dispatched, visitDocument. rewrite validateQuery_emitted.
  by apply (emittedAll_In typeText sortValues symbols e n).
Qed.

(** C10 (as amended). The definition checker itself emits nothing but the
    two definition-local diagnostics.  The top-level walk nevertheless goes
    on below a definition: what a definition adds to the result of the
    document is the checker's diagnostics followed by what the walk yields
    for its value subtree, so a query node inside the value is validated
    like any other query: every diagnostic of [validateQuery] on it is in
    the result, among them the messages of its placeholders, its mismatched
    ranges, its unknown qualifiers and its unknown variables. *)
Theorem definition_subtree (pos : Span) (name : VariableName) (value : Node) :
  let defNode := VariableDefinitionNode pos name value in
  Forall (λ e, err_message e = orMessage ∨ err_message e = selfReferenceMessage)
         (validateVariableDefinition defNode [])
  ∧ (∀ before after text,
        validate (mkDoc (before ++ defNode :: after) text)
        = validate (mkDoc before text)
            ++ validateVariableDefinition defNode []
            ++ validate (mkDoc [value] text)
            ++ validate (mkDoc after text))
  ∧ ∀ query text,
      In query (walk value) → nodeType query = NodeType.Query →
      (∀ e, In e (validateQuery typeText sortValues query [] symbols) →
            In e (validate (mkDoc [defNode] text)))
      ∧ (∀ p message,
            In (MissingNode p message) (walk query) →
            In (mkError (MissingNode p message) message None)
               (validate (mkDoc [defNode] text)))
      ∧ (∀ range,
            In range (walk query) → mismatched range = true →
            In (mkError range rangeMessage None) (validate (mkDoc [defNode] text)))
      ∧ (∀ p q v,
            In (QualifiedValueNode p q v) (walk query) →
            (getFirst symbols (literal_value q) = None
             ∨ ∃ type stored,
                 getFirst symbols (literal_value q) = Some (User type stored)) →
            In (mkError (LiteralNode q) (unknownQualifierMessage (literal_value q))
                        None)
               (validate (mkDoc [defNode] text)))
      ∧ (∀ var,
            In (VariableNameNode var) (walk query) →
            isUser symbols (variable_value var) = false →
            In (mkError (VariableNameNode var) unknownVariableMessage None)
               (validate (mkDoc [defNode] text))).
Proof.
  intros defNode. split; [|split].
  - unfold defNode, validateVariableDefinition.
    rewrite foldl_visitDefinition_frame. apply visitDefinition_messages.
  - intros before after text.
    change (defNode :: after) with ([defNode] ++ after).
    rewrite !validate_app. f_equal. rewrite app_assoc. f_equal.
    rewrite !validateQueryDocument_dispatched.
    change (walkDocument (mkDoc [defNode] text))
      with ((defNode :: VariableNameNode name :: walk value) ++ []).
    change (walkDocument (mkDoc [value] text)) with (walk value ++ []).
    rewrite !app_nil_r. reflexivity.
  - intros query text Hquery Hkind.
    assert (Hin : In query (walkDocument (mkDoc [defNode] text))).
    { change (walkDocument (mkDoc [defNode] text))
        with ((defNode :: VariableNameNode name :: walk value) ++ []).
      rewrite app_nil_r. right; right. exact Hquery. }
    split; [|split; [|split; [|split]]].
    + intros e He. rewrite validateQueryDocument_dispatched.
      apply in_concat. exists (dispatched' query). split; [by apply in_map|].
      by destruct query.
    + intros p message Hn.
      apply (validate_query_below _ query (MissingNode p message)); try done.
      intros m. by left.
    + intros range Hn Hrange.
      apply (validate_query_below _ query range); try done.
      intros m. destruct range; try discriminate.
      rewrite (emitted_range typeText sortValues symbols), Hrange. by left.
    + intros p q v Hn Hq.
      apply (validate_query_below _ query (QualifiedValueNode p q v)); try done.
      intros m. rewrite (emitted_unknown_qualifier m p q v Hq). by left.
    + intros var Hn Hvar.
      apply (validate_query_below _ query (VariableNameNode var)); try done.
      intros m.
      destruct (emitted_variable typeText sortValues symbols m var) as [-> _].
      rewrite Hvar. by left.
Qed.

(** *** How many diagnostics *)

Lemma emitted_length (m : gmap string Node) (n : Node) :
  length (emitted typeText sortValues symbols m n) ≤ 1.
Proof.
  unfold emitted, visitQuery.
  destruct n; simpl; try lia.
  - unfold checkQualifiedValue; simpl.
    repeat (case_match; simpl; try lia).
  - unfold checkRange. repeat (case_match; simpl; try lia).
  - unfold checkSortBy. repeat (case_match; simpl; try lia).
  - unfold checkVariableName. repeat (case_match; simpl; try lia).
Qed.

Lemma emittedAll_length (l : list Node) (m : gmap string Node) :
  length (emittedAll typeText sortValues symbols m l) ≤ length l.
Proof.
  revert m. induction l as [|n l IH]; intros m; [reflexivity|].
  rewrite emittedAll_cons, length_app. simpl.
  pose proof (emitted_length m n).
  pose proof (IH (mutualAfter typeText sortValues symbols m n)). lia.
Qed.

Lemma visitDefinition_length (name : VariableName) (l : list Node) :
  length (concat (map (visitDefinition name []) l)) ≤ length l.
Proof.
  induction l as [|n l IH]; [reflexivity|].
  simpl. rewrite length_app, visitDefinition_cases.
  destruct (isOrToken n); [simpl; lia|].
  destruct (isSelfReference name n); simpl; lia.
Qed.

Lemma dispatched_length (n : Node) : length (dispatched' n) ≤ nodeCount n.
Proof.
  unfold nodeCount, dispatched, visitDocument.
  destruct n; simpl; try lia.
  - rewrite validateQuery_emitted. apply emittedAll_length.
  - rewrite foldl_visitDefinition_frame. simpl.
    pose proof (visitDefinition_length name (walk n)). lia.
Qed.

(** C4 (as amended). [validateQueryDocument] is a total function: it
    returns a list for every document and table.  Each visit of the
    top-level walk adds at most as many diagnostics as the visited subtree
    has nodes; and when no query node or definition lies below a top-level
    node of the document, so that no node is validated twice, the result is
    no longer than the number of nodes of the document. *)
Theorem diagnostics_bound (doc : QueryDocumentNode) :
  (∀ result n,
      length (visitDocument typeText sortValues symbols result n)
      ≤ length result + nodeCount n)
  ∧ (forallb flat (doc_nodes doc) = true →
     length (validate doc) ≤ documentCount doc).
Proof.
  split.
  - intros result n. rewrite visitDocument_frame, length_app.
    pose proof (dispatched_length n). lia.
  - intros Hflat. rewrite validateQueryDocument_dispatched.
    unfold documentCount, walkDocument.
    induction (doc_nodes doc) as [|t l IH]; simpl; [lia|].
    simpl in Hflat. apply andb_true_iff in Hflat as [Ht Hl].
    rewrite map_app, concat_app, !length_app.
    specialize (IH Hl).
    rewrite (walk_first t) at 1. simpl.
    rewrite (dispatched_none _ Ht), app_nil_r.
    pose proof (dispatched_length t) as Hd. unfold nodeCount in Hd. lia.
Qed.

End Document.

(** ** Ranges over a whole document *)

Section RangeReports.

Variable typeText : ValueType.t → string.
Variable sortValues : list string.
Variable symbols : SymbolTable.

Local Abbreviation emitted' := (emitted typeText sortValues symbols).
Local Abbreviation dispatched' := (dispatched typeText sortValues symbols).
Local Abbreviation validate doc :=
  (validateQueryDocument typeText sortValues doc symbols).





End RangeReports.

(** ** The extractor against its specification *)

Section ExtractorFacts.

Variable print : Node → string → (string → option string) → string.
Variable typeText : ValueType.t → string.

Lemma indexOf_splitAtFirst (c : ascii) (s : string) :
  match splitAtFirst c s with
  | Some (before, after) =>
      indexOf s c = Z.of_nat (String.length before)
      ∧ s = before +:+ String c after
  | None => indexOf s c = (-1)%Z
  end.
Proof.
  induction s as [|x rest IH]; simpl; [reflexivity|].
  destruct (Ascii.eqb_spec x c) as [->|Hx]; [by split|].
  destruct (splitAtFirst c rest) as [[before after]|].
  - destruct IH as [-> ->]. simpl String.length.
    destruct (Z.ltb_spec (Z.of_nat (String.length before)) 0); [lia|].
    split; [lia | reflexivity].
  - by rewrite IH.
Qed.

Lemma substring_prefix (before rest : string) :
  String.substring 0 (String.length before) (before +:+ rest) = before.
Proof. induction before as [|x before IH]; simpl; [by destruct rest | by rewrite IH]. Qed.

Lemma substring_whole (s : string) :
  String.substring 0 (String.length s) s = s.
Proof. induction s as [|x s IH]; simpl; [reflexivity | by rewrite IH]. Qed.

Lemma substring_suffix (before : string) (c : ascii) (after : string) :
  String.substring (S (String.length before)) (String.length after)
                   (before +:+ String c after) = after.
Proof.
  induction before as [|x before IH]; simpl; [apply substring_whole | exact IH].
Qed.

Lemma length_split (before : string) (c : ascii) (after : string) :
  String.length (before +:+ String c after)
  = String.length before + S (String.length after).
Proof. induction before as [|x before IH]; simpl; [reflexivity | by rewrite IH]. Qed.

Lemma splitRepo_emitSpec (s : string) : splitRepo s = emitSpec s.
Proof.
  unfold splitRepo, emitSpec.
  pose proof (indexOf_splitAtFirst "/" s) as H.
  destruct (splitAtFirst "/" s) as [[before after]|]; [|by rewrite H].
  destruct H as [Hidx Hs]. rewrite Hidx.
  destruct (Nat.ltb_spec 0 (String.length before)) as [Hpos|Hpos].
  - destruct (Z.gtb_spec (Z.of_nat (String.length before)) 0); [|lia].
    unfold substringFrom, substring.
    pose proof (length_split before "/" after) as Hlen. rewrite <- Hs in Hlen.
    rewrite Hlen. do 2 f_equal.
    + replace (Z.to_nat _) with 0 by lia.
      replace (Z.to_nat _) with (String.length before) by lia.
      rewrite Hs. apply substring_prefix.
    + replace (Z.to_nat _) with (S (String.length before)) by lia.
      replace (Z.to_nat _) with (String.length after) by lia.
      rewrite Hs. apply substring_suffix.
  - destruct (Z.gtb_spec (Z.of_nat (String.length before)) 0); [lia | reflexivity].
Qed.

Lemma visitRepo_frame (doc : QueryDocumentNode) (project : Project)
    (b : list RepoValue) (n : Node) :
  visitRepo print typeText doc project b n
  = b ++ visitRepo print typeText doc project [] n.
Proof.
  unfold visitRepo. destruct n; rewrite ?app_nil_r; try reflexivity.
  destruct (negb _); [by rewrite app_nil_r|].
  destruct (match n with VariableNameNode _ => _ | _ => _ end) as [v|];
    [|by rewrite app_nil_r].
  destruct (truthyValue v); by rewrite ?app_nil_r.
Qed.

Lemma foldl_visitRepo_frame (doc : QueryDocumentNode) (project : Project)
    (l : list Node) (b : list RepoValue) :
  foldl (visitRepo print typeText doc project) b l
  = b ++ concat (map (visitRepo print typeText doc project []) l).
Proof.
  revert b. induction l as [|n l IH]; intros b; simpl.
  - by rewrite app_nil_r.
  - by rewrite IH, visitRepo_frame, app_assoc.
Qed.


End ExtractorFacts.

(** C1, counterexample: in [is:pr is:pr is:issue] the conflict on
    [is:issue] names the second [is:pr], which registered last, not the
    first occurrence; and three values of one set make two conflicts, both
    naming the first. *)
Lemma conflict_names_latest_occurrence :
  Examples.validate MoreExamples.prPrIssue
  = [mkError MoreExamples.isIssueLast conflictMessage (Some MoreExamples.isPrAgain)]
  ∧ MoreExamples.isPrAgain ≠ Examples.isPr
  ∧ validateQueryDocument Examples.typeNames Examples.sortFields
      MoreExamples.threeStates MoreExamples.crossTable
    = [mkError (MoreExamples.stateOf 11 23 "closed") conflictMessage
               (Some (MoreExamples.stateOf 0 10 "open"));
       mkError (MoreExamples.stateOf 24 36 "merged") conflictMessage
               (Some (MoreExamples.stateOf 0 10 "open"))].
Proof. split; [reflexivity | split; [discriminate | reflexivity]]. Qed.

(** C1, witness: [is:pr is:issue] yields one conflict, on [is:issue], naming
    [is:pr]; in [is:open is:pr is:issue] the value [issue] conflicts with
    [is:pr], which [is:open] does not exclude; and in [is:pr is:pr is:issue]
    it conflicts with the second [is:pr]. *)
Lemma mutual_exclusion_witness :
  conflicts (Examples.validate Examples.prAndIssue)
  = [mkError Examples.isIssue conflictMessage (Some Examples.isPr)]
  ∧ In (mkError (MoreExamples.isAt 14 22 "issue") conflictMessage
                (Some (MoreExamples.isAt 8 13 "pr")))
       (Examples.validate MoreExamples.openPrIssue)
  ∧ In (mkError MoreExamples.isIssueLast conflictMessage
                (Some MoreExamples.isPrAgain))
       (Examples.validate MoreExamples.prPrIssue).
Proof.
  split; [|split].
  - refine (proj1 (proj1 (proj2 (proj2 (mutual_exclusion_per_query
                     Examples.typeNames Examples.sortFields Examples.table
                     Examples.prAndIssue)))
                   [] ["pr"; "issue"] [["open"; "closed"]]
                   (mkSpan 0 5) (mkSpan 6 14)
                   (Examples.literal 0 2 "is") (Examples.literal 6 8 "is")
                   (Examples.literal 3 5 "pr") (Examples.literal 9 14 "issue")
                   [] [] [] (mkSpan 0 14) (mkSpan 0 14) "is:pr is:issue"
                   _ _ _ _ _ _ _ _) _);
      try reflexivity.
    discriminate.
  - destruct (proj1 (proj2 (mutual_exclusion_per_query
                       Examples.typeNames Examples.sortFields Examples.table
                       MoreExamples.openPrIssue))
                (QueryNode (mkSpan 0 22)
                   [MoreExamples.isOpen; MoreExamples.isAt 8 13 "pr";
                    MoreExamples.isAt 14 22 "issue"])
                [MoreExamples.isOpen; LiteralNode (Examples.literal 0 2 "is");
                 LiteralNode (Examples.literal 3 7 "open")]
                (MoreExamples.isAt 8 13 "pr")
                [LiteralNode (Examples.literal 8 10 "is");
                 LiteralNode (Examples.literal 11 13 "pr")]
                (MoreExamples.isAt 14 22 "issue")
                [LiteralNode (Examples.literal 14 16 "is");
                 LiteralNode (Examples.literal 17 22 "issue")])
      as (c & _ & Hin & Hsame);
      [by left | reflexivity | reflexivity | reflexivity | reflexivity
      | reflexivity |].
    by rewrite (Hsame eq_refl) in Hin.
  - destruct (proj1 (proj2 (mutual_exclusion_per_query
                       Examples.typeNames Examples.sortFields Examples.table
                       MoreExamples.prPrIssue))
                (QueryNode (mkSpan 0 20)
                   [Examples.isPr; MoreExamples.isPrAgain;
                    MoreExamples.isIssueLast])
                [Examples.isPr; LiteralNode (Examples.literal 0 2 "is");
                 LiteralNode (Examples.literal 3 5 "pr")]
                MoreExamples.isPrAgain
                [LiteralNode (Examples.literal 6 8 "is");
                 LiteralNode (Examples.literal 9 11 "pr")]
                MoreExamples.isIssueLast
                [LiteralNode (Examples.literal 12 14 "is");
                 LiteralNode (Examples.literal 15 20 "issue")])
      as (c & _ & Hin & Hsame);
      [by left | reflexivity | reflexivity | reflexivity | reflexivity
      | reflexivity |].
    by rewrite (Hsame eq_refl) in Hin.
Defined.

(** C2, counterexample: in [label:$me] the qualifier is unknown, and yet the
    value, a node of the value subtree, gets a diagnostic of its own. *)
Lemma unknown_qualifier_value_still_checked :
  Examples.validate Examples.labelMe
  = [mkError (LiteralNode (Examples.literal 0 5 "label"))
             "Unknown qualifier: 'label'" None;
     mkError Examples.me "Unknown variable" None]
  ∧ In Examples.me (walk Examples.me).
Proof. split; [reflexivity | by left]. Qed.

(** C2, witness: the qualifier [label] of [label:$me] is not in the table. *)
Lemma unknown_qualifier_witness :
  emitted Examples.typeNames Examples.sortFields Examples.table ∅
          (QualifiedValueNode (mkSpan 0 9) (Examples.literal 0 5 "label") Examples.me)
  = [mkError (LiteralNode (Examples.literal 0 5 "label"))
             "Unknown qualifier: 'label'" None].
Proof.
  refine (proj1 (unknown_qualifier_then_value
                   Examples.typeNames Examples.sortFields Examples.table ∅
                   (mkSpan 0 9) (Examples.literal 0 5 "label") Examples.me _)).
  left. reflexivity.
Defined.

(** C3, counterexample: in [created:$since] the unbound variable is the value
    of a qualified value, and gets "Unknown variable" besides the
    qualifier's "Invalid value, expected date". *)
Lemma variable_in_value_position_checked_twice :
  Examples.validate Examples.createdSince
  = [mkError Examples.since "Invalid value, expected date" None;
     mkError Examples.since "Unknown variable" None].
Proof. reflexivity. Qed.

(** C3, witness: [created] expects a date. *)
Lemma unknown_variable_witness :
  emittedAll Examples.typeNames Examples.sortFields Examples.table ∅
    (walk (QualifiedValueNode (mkSpan 0 14) (Examples.literal 0 7 "created")
                              Examples.since))
  = [mkError Examples.since "Invalid value, expected date" None;
     mkError Examples.since "Unknown variable" None].
Proof.
  refine (proj2 (unknown_variable_everywhere
                   Examples.typeNames Examples.sortFields Examples.table ∅
                   (Examples.variable 8 14 "$since"))
                (mkSpan 0 14) (Examples.literal 0 7 "created") ValueType.Date _).
  reflexivity.
Defined.

(** C4, counterexample: [$a=$a $a $a $a $a] with [$a] unbound has nine nodes
    (the root, the definition, its name, the query and five variable names)
    and ten diagnostics: the definition checker and [validateQuery] each
    report the five variable names.  Every further variable name would add
    one node and two diagnostics. *)
Lemma more_diagnostics_than_nodes :
  documentCount Examples.selfish = 9
  ∧ length (Examples.validate Examples.selfish) = 10.
Proof. split; reflexivity. Qed.

(** C4, witness: [is:pr is:issue] has no query below its query. *)
Lemma diagnostics_bound_witness :
  length (Examples.validate Examples.prAndIssue) ≤ documentCount Examples.prAndIssue.
Proof.
  refine (proj2 (diagnostics_bound Examples.typeNames Examples.sortFields
                   Examples.table Examples.prAndIssue) _).
  reflexivity.
Defined.

(** C5, counterexample: in [created:$start] the value is a variable name,
    which is not date-like, and passes without any diagnostic. *)
Lemma date_variable_accepted :
  Examples.validate Examples.createdStart = []
  ∧ isNumberOrDateLike Examples.start NodeType.Date = false.
Proof. split; reflexivity. Qed.

(** C5, witness: [created:bug], a literal where a date is expected. *)
Lemma scalar_qualifier_witness :
  emitted Examples.typeNames Examples.sortFields Examples.table ∅ Examples.createdBug
  = [mkError (LiteralNode (Examples.literal 8 11 "bug"))
             "Invalid value, expected date" None].
Proof.
  refine (proj1 (scalar_qualifier_value
                   Examples.typeNames Examples.sortFields Examples.table ∅
                   (mkSpan 0 11) (Examples.literal 0 7 "created")
                   (LiteralNode (Examples.literal 8 11 "bug")) _) _).
  - discriminate.
  - reflexivity.
Defined.

(** C6. The failing input: the placeholder that stands for the value of
    [$a=] is a node of the document, and no diagnostic is emitted for it;
    the same placeholder as a node of a query is reported with its
    message. *)
Lemma missing_definition_value_unreported :
  In Examples.noValue (walkDocument Examples.emptyDefinition)
  ∧ Examples.validate Examples.emptyDefinition = []
  ∧ Examples.validate MoreExamples.queryOfNoValue
    = [mkError Examples.noValue "Expected query" None].
Proof. split; [right; right; by left | split; reflexivity]. Qed.

(** X18, witness: the placeholder of [is:open label:] lies in a query. *)
Lemma missing_reported_witness :
  In (mkError (MissingNode (mkSpan 14 14) "Expected value") "Expected value" None)
     (Examples.validate (mkDoc [Examples.brokenQuery] "is:open label:")).
Proof.
  refine (proj2 (missing_reported_within_query
                   Examples.typeNames Examples.sortFields Examples.table
                   (mkSpan 14 14) "Expected value")
                (mkDoc [Examples.brokenQuery] "is:open label:")
                Examples.brokenQuery _ _ _).
  - by left.
  - reflexivity.
  - simpl. tauto.
Defined.

(** C10, counterexample: in [$a=label:] the value of the definition is a
    query; its unknown qualifier and its placeholder, both nodes of the
    definition's value subtree, get the diagnostics of [validateQuery]. *)
Lemma query_inside_definition_validated :
  Examples.validate Examples.definitionWithQuery
  = [mkError (LiteralNode (Examples.literal 3 8 "label"))
             "Unknown qualifier: 'label'" None;
     mkError Examples.noLabel "Expected value" None]
  ∧ In Examples.noLabel (walk Examples.definedQuery)
  ∧ In (LiteralNode (Examples.literal 3 8 "label")) (walk Examples.definedQuery).
Proof. split; [reflexivity | split; simpl; tauto]. Qed.

(** C10, witness: in [$a=label:] the placeholder inside the defined query
    is reported. *)
Lemma definition_subtree_witness :
  In (mkError Examples.noLabel "Expected value" None)
     (Examples.validate Examples.definitionWithQuery).
Proof.
  refine (proj1 (proj2 (proj2 (proj2 (definition_subtree
                                        Examples.typeNames Examples.sortFields
                                        Examples.table (mkSpan 0 9)
                                        (Examples.variable 0 2 "$a")
                                        Examples.definedQuery))
                              Examples.definedQuery "$a=label:" _ _))
                (mkSpan 9 9) "Expected value" _).
  - by left.
  - reflexivity.
  - simpl. tauto.
Defined.

(** ** The scenarios of the extractor *)

Module RepoExamples.

Import Examples.

Lemma owner_and_repo :
  getRepoInfos slice typeNames
    (mkDoc [QueryNode (mkSpan 0 17) [repoOf 0 "acme/widgets"]] "repo:acme/widgets")
    project
  = [mkRepoInfo "acme" "widgets"].
Proof. reflexivity. Qed.

Lemma no_separator :
  getRepoInfos slice typeNames
    (mkDoc [QueryNode (mkSpan 0 12) [repoOf 0 "noslash"]] "repo:noslash") project
  = [].
Proof. reflexivity. Qed.

Lemma separator_first :
  getRepoInfos slice typeNames
    (mkDoc [QueryNode (mkSpan 0 13) [repoOf 0 "/widgets"]] "repo:/widgets") project
  = [].
Proof. reflexivity. Qed.

Lemma two_in_order :
  getRepoInfos slice typeNames
    (mkDoc [QueryNode (mkSpan 0 17) [repoOf 0 "a/b"; repoOf 9 "c/d/e"]]
           "repo:a/b repo:c/d/e")
    project
  = [mkRepoInfo "a" "b"; mkRepoInfo "c" "d/e"].
Proof. reflexivity. Qed.

End RepoExamples.

(** ** Further properties of the validator *)

Section Reporting.

Variable typeText : ValueType.t → string.
Variable sortValues : list string.
Variable symbols : SymbolTable.

Local Abbreviation emittedAll' := (emittedAll typeText sortValues symbols).
Local Abbreviation emitted' := (emitted typeText sortValues symbols).
Local Abbreviation mutualAfter' := (mutualAfter typeText sortValues symbols).
Local Abbreviation dispatched' := (dispatched typeText sortValues symbols).
Local Abbreviation validate doc :=
  (validateQueryDocument typeText sortValues doc symbols).

(** X1. The three functions only ever append to the bucket they are given:
    what it held before stays, in place and in order, and what is appended
    does not depend on it. *)
Theorem bucket_append_only (node : Node) (b : list ValidationError) :
  validateQuery typeText sortValues node b symbols
  = b ++ validateQuery typeText sortValues node [] symbols
  ∧ validateVariableDefinition node b = b ++ validateVariableDefinition node []
  ∧ visitDocument typeText sortValues symbols b node
    = b ++ visitDocument typeText sortValues symbols [] node.
Proof.
  split; [|split].
  - by rewrite !validateQuery_emitted.
  - unfold validateVariableDefinition.
    destruct node; rewrite ?app_nil_r; try reflexivity.
    by rewrite !foldl_visitDefinition_frame.
  - apply visitDocument_frame.
Qed.

(** X2. The diagnostics of a document are those of its top-level nodes, one
    after the other: validating a concatenation is concatenating the
    validations.  The source text of the document plays no part. *)
Theorem document_concatenation (l1 l2 : list Node) (text text1 text2 : string) :
  validate (mkDoc (l1 ++ l2) text)
  = validate (mkDoc l1 text1) ++ validate (mkDoc l2 text2).
Proof.
  rewrite !validateQueryDocument_dispatched. unfold walkDocument. simpl.
  by rewrite !map_app, !concat_app, map_app, concat_app.
Qed.

Lemma walk_self (n : Node) : In n (walk n).
Proof. rewrite walk_first. by left. Qed.

Lemma walk_trans (n x y : Node) :
  In x (walk n) → In y (walk x) → In y (walk n).
Proof.
  revert x y.
  induction n as [ | ? ? v IH | | | | | ? q v IH | ? ns IH | ? o c IHo IHc
                 | ? c IH | ? name v IH | ] using Node_ind;
    intros x y Hx Hy; simpl in Hx; destruct Hx as [<- | Hx]; try exact Hy;
    try (by destruct Hx).
  - right. by apply (IH x).
  - destruct Hx as [<- | Hx]; [destruct Hy as [<- | []]; right; by left|].
    right; right. by apply (IH x).
  - right. apply in_concat in Hx as (w & Hw & Hx).
    apply in_map_iff in Hw as (child & <- & Hchild).
    apply in_concat. exists (walk child). split; [by apply in_map|].
    rewrite Forall_forall in IH.
    apply (IH child (proj2 (list_elem_of_In _ _) Hchild) x y Hx Hy).
  - right. apply in_or_app. apply in_app_or in Hx as [Hx | Hx].
    + left. destruct o as [o|]; [|destruct Hx]. simpl in *. by apply (IHo x).
    + right. destruct c as [c|]; [|destruct Hx]. simpl in *. by apply (IHc x).
  - right. by apply (IH x).
  - destruct Hx as [<- | Hx]; [destruct Hy as [<- | []]; right; by left|].
    right; right. by apply (IH x).
Qed.

Lemma walkDocument_trans (doc : QueryDocumentNode) (x y : Node) :
  In x (walkDocument doc) → In y (walk x) → In y (walkDocument doc).
Proof.
  unfold walkDocument. intros Hx Hy.
  apply in_concat in Hx as (w & Hw & Hx).
  apply in_map_iff in Hw as (top & <- & Htop).
  apply in_concat. exists (walk top). split; [by apply in_map|].
  by apply (walk_trans top x).
Qed.

Lemma emitted_nodes (m : gmap string Node) (n : Node) :
  Forall (λ e, In (err_node e) (walk n)) (emitted' m n).
Proof.
  unfold emitted, visitQuery.
  destruct n; simpl; try (by repeat constructor).
  - pose proof (walk_self n) as Hvalue.
    unfold checkQualifiedValue; simpl.
    repeat (case_match; simpl; try (by repeat constructor; auto)).
  - unfold checkRange. repeat (case_match; simpl; try (by repeat constructor)).
  - unfold checkSortBy.
    repeat (case_match; simpl; try (by repeat constructor; auto)).
  - unfold checkVariableName.
    repeat (case_match; simpl; try (by repeat constructor)).
Qed.

Lemma emittedAll_nodes (l : list Node) (m : gmap string Node) :
  Forall (λ e, ∃ n, In n l ∧ In (err_node e) (walk n)) (emittedAll' m l).
Proof.
  revert m. induction l as [|n l IH]; intros m; [constructor|].
  rewrite emittedAll_cons. apply Forall_app. split.
  - eapply Forall_impl; [apply emitted_nodes|].
    intros e He. exists n. split; [by left | exact He].
  - eapply Forall_impl; [apply IH|].
    intros e (x & Hx & He). exists x. split; [by right | exact He].
Qed.

Lemma dispatched_nodes (x : Node) :
  Forall (pointsInto (walk x)) (dispatched' x).
Proof.
  unfold dispatched, visitDocument.
  destruct x; try constructor.
  - rewrite validateQuery_emitted. simpl app.
    pose proof (emittedAll_nodes (walk (QueryNode pos nodes)) ∅) as Hnodes.
    pose proof (foldl_visitQuery_invariant typeText sortValues symbols
                  (walk (QueryNode pos nodes)) [] ∅) as Hconflict.
    rewrite Forall_forall in Hnodes, Hconflict.
    apply Forall_forall. intros e He. split.
    + destruct (Hnodes e He) as (n & Hn & Hin). by apply (walk_trans _ n).
    + intros c Hc.
      apply (Hconflict ltac:(intros k c' Hk; by rewrite lookup_empty in Hk) e He c Hc).
  - unfold validateVariableDefinition. rewrite foldl_visitDefinition_frame.
    simpl app.
    assert (Hsub : ∀ y, In y (walk x) → In y (walk (VariableDefinitionNode pos name x)))
      by (intros y Hy; right; right; exact Hy).
    induction (walk x) as [|n l IH]; [constructor|].
    simpl. apply Forall_app. split.
    + rewrite visitDefinition_cases.
      destruct (isOrToken n).
      { constructor; [|constructor].
        split; [apply Hsub; by left | discriminate]. }
      destruct (isSelfReference name n); [|constructor].
      constructor; [|constructor].
      split; [apply Hsub; by left | discriminate].
    + apply IH. intros y Hy. apply Hsub. by right.
Qed.

(** X3. [validateQueryDocument] never reports a node from elsewhere: every
    diagnostic is attached to a node of the document, and a conflicting node
    it names is a node of the document as well. *)
Theorem diagnostics_point_into_document (doc : QueryDocumentNode) :
  Forall (pointsInto (walkDocument doc)) (validate doc).
Proof.
  rewrite validateQueryDocument_dispatched.
  apply Forall_concat, Forall_forall. intros ds Hds.
  apply list_elem_of_In, in_map_iff in Hds as (x & <- & Hx).
  eapply Forall_impl; [apply dispatched_nodes|].
  intros e [Hnode Hconflict]. split.
  - by apply (walkDocument_trans doc x).
  - intros c Hc. apply (walkDocument_trans doc x); [exact Hx | by apply Hconflict].
Qed.


End Reporting.

(** ** Further properties of the rules *)

Section RuleDetails.

Variable typeText : ValueType.t → string.
Variable sortValues : list string.
Variable symbols : SymbolTable.

Local Abbreviation emittedAll' := (emittedAll typeText sortValues symbols).
Local Abbreviation mutualAfterAll' := (mutualAfterAll typeText sortValues symbols).
Local Abbreviation emitted' := (emitted typeText sortValues symbols).
Local Abbreviation mutualAfter' := (mutualAfter typeText sortValues symbols).

Lemma has_In (set : list string) (v : string) : has set v = true ↔ In v set.
Proof.
  unfold has. rewrite existsb_exists. split.
  - intros (x & Hx & Heq). apply String.eqb_eq in Heq. by subst.
  - intros Hv. exists v. split; [exact Hv | apply String.eqb_refl].
Qed.

(** X5. A sort directive whose criteria is a literal outside [sortValues]
    gets one diagnostic, on the criteria, listing the allowed values joined
    by ", "; a literal among them gets none.  Criteria of another kind are
    not judged by this rule: the walk visits them under the rules of their
    own kind.  [mutual] is left alone. *)
Theorem sort_criteria (m : gmap string Node) (pos : Span) (criteria : Node) :
  emittedAll' m (walk (SortByNode pos criteria))
  = match criteria with
    | LiteralNode l =>
        if has sortValues (literal_value l) then []
        else [mkError criteria
                      ("Unknown value, must be one of: " +:+ join ", " sortValues)
                      None]
    | _ => emittedAll' m (walk criteria)
    end
  ∧ mutualAfterAll' m (walk (SortByNode pos criteria))
    = mutualAfterAll' m (walk criteria)
  ∧ ∀ v, has sortValues v = true ↔ In v sortValues.
Proof.
  split; [|split]; [| |apply has_In].
  - change (walk (SortByNode pos criteria))
      with (SortByNode pos criteria :: walk criteria).
    rewrite emittedAll_cons.
    destruct criteria; try reflexivity.
    unfold emitted, mutualAfter, visitQuery, checkSortBy. simpl.
    by destruct (has sortValues (literal_value lit)).
  - change (walk (SortByNode pos criteria))
      with (SortByNode pos criteria :: walk criteria).
    rewrite mutualAfterAll_cons.
    destruct criteria; try reflexivity.
    unfold mutualAfter, visitQuery, checkSortBy. simpl.
    by destruct (has sortValues (literal_value lit)).
Qed.

(** One visit of a qualified value whose qualifier carries value sets. *)
Lemma visit_sets (m : gmap string Node) (pos : Span) (q : Literal) (value : Node)
    (sets : list (list string)) :
  getFirst symbols (literal_value q) = Some (Static (Sets sets)) →
  (emitted' m (QualifiedValueNode pos q value),
   mutualAfter' m (QualifiedValueNode pos q value))
  = match m !! valueText (QualifiedValueNode pos q value) with
    | Some first =>
        ([mkError (QualifiedValueNode pos q value) conflictMessage (Some first)], m)
    | None =>
        let scanned := scanSets sets (valueText (QualifiedValueNode pos q value))
                                (QualifiedValueNode pos q value) m in
        if scanned.1 then ([], scanned.2)
        else ([mkError value (unknownValueMessage sets) None], m)
    end.
Proof.
  intros Hq.
  unfold mutualAfter, emitted, visitQuery, checkQualifiedValue.
  simpl. rewrite Hq.
  generalize (match value with LiteralNode l => literal_value l | _ => "" end).
  intros v.
  destruct (m !! v); [reflexivity|].
  by destruct (scanSets sets v (QualifiedValueNode pos q value) m) as [[|] m'].
Qed.

Lemma scanSets_none (sets : list (list string)) (v : string) (node : Node)
    (m : gmap string Node) :
  existsb (λ set, has set v) sets = false → scanSets sets v node m = (false, m).
Proof.
  induction sets as [|set sets IH]; simpl; [reflexivity|].
  destruct (has set v); simpl; [discriminate | exact IH].
Qed.

(** X6. A qualifier with value sets and a value that is in none of the sets
    (the empty string standing for a value that is not a literal), with no
    conflict pending for it: one diagnostic "Unknown value, must be one of:
    ..." on the value node, and nothing is registered in [mutual]. *)
Theorem unknown_value_rejected (m : gmap string Node) (pos : Span) (q : Literal)
    (value : Node) (sets : list (list string)) :
  getFirst symbols (literal_value q) = Some (Static (Sets sets)) →
  m !! valueText (QualifiedValueNode pos q value) = None →
  existsb (λ set, has set (valueText (QualifiedValueNode pos q value))) sets = false →
  emitted' m (QualifiedValueNode pos q value)
  = [mkError value
             ("Unknown value, must be one of: " +:+ join ", " (map (join ", ") sets))
             None]
  ∧ mutualAfter' m (QualifiedValueNode pos q value) = m.
Proof.
  intros Hq Hm Hnone.
  pose proof (visit_sets m pos q value sets Hq) as H.
  rewrite Hm, (scanSets_none _ _ _ _ Hnone) in H. simpl in H.
  by injection H as -> ->.
Qed.

(** X7. [mutual] is keyed by the value alone, not by the qualifier: once a
    value of a set has been accepted, another member of that set conflicts
    under any qualifier with value sets, whether or not it is a value of that
    qualifier, and the conflict is reported instead of "Unknown value". *)
Theorem conflict_across_qualifiers (p1 p2 : Span) (q1 q2 l1 l2 : Literal)
    (before : list (list string)) (set : list string) (after : list (list string))
    (sets2 : list (list string)) :
  getFirst symbols (literal_value q1)
    = Some (Static (Sets (before ++ set :: after))) →
  getFirst symbols (literal_value q2) = Some (Static (Sets sets2)) →
  forallb (λ other, negb (has other (literal_value l1))) before = true →
  has set (literal_value l1) = true →
  has set (literal_value l2) = true →
  literal_value l1 ≠ literal_value l2 →
  emittedAll' ∅ (walk (QualifiedValueNode p1 q1 (LiteralNode l1))
                   ++ walk (QualifiedValueNode p2 q2 (LiteralNode l2)))
  = [mkError (QualifiedValueNode p2 q2 (LiteralNode l2)) conflictMessage
             (Some (QualifiedValueNode p1 q1 (LiteralNode l1)))].
Proof.
  intros Hq1 Hq2 Hbefore Hl1 Hl2 Hne.
  set (n1 := QualifiedValueNode p1 q1 (LiteralNode l1)).
  set (n2 := QualifiedValueNode p2 q2 (LiteralNode l2)).
  change (walk n1 ++ walk n2)
    with [n1; LiteralNode q1; LiteralNode l1; n2; LiteralNode q2; LiteralNode l2].
  pose proof (visit_sets ∅ p1 q1 (LiteralNode l1) _ Hq1) as H1.
  rewrite lookup_empty in H1. simpl valueText in H1.
  rewrite (scanSets_first before set after _ _ ∅ Hbefore Hl1) in H1. simpl in H1.
  injection H1 as He1 Hm1. fold n1 in He1, Hm1.
  assert (Hfirst : register (literal_value l1) n1 set ∅ !! literal_value l2 = Some n1).
  { rewrite register_lookup, Hl2. simpl.
    destruct (String.eqb_spec (literal_value l2) (literal_value l1)) as [E|_];
      [by symmetry in E | reflexivity]. }
  pose proof (visit_sets (register (literal_value l1) n1 set ∅) p2 q2
                (LiteralNode l2) _ Hq2) as H2.
  simpl valueText in H2. rewrite Hfirst in H2.
  injection H2 as He2 Hm2. fold n1 n2 in He2, Hm2.
  rewrite emittedAll_cons, He1, Hm1. simpl app.
  do 2 rewrite emittedAll_cons. simpl app.
  change (mutualAfter' (register (literal_value l1) n1 set ∅) (LiteralNode q1))
    with (register (literal_value l1) n1 set ∅).
  change (mutualAfter' (register (literal_value l1) n1 set ∅) (LiteralNode l1))
    with (register (literal_value l1) n1 set ∅).
  rewrite emittedAll_cons, He2, Hm2. reflexivity.
Qed.

(** X8. What an accepted value leaves in [mutual]: looking up a text
    afterwards gives the accepted node for every other member of the first
    set that holds the value, and what was there before for any other text,
    the value itself included.  Nothing is reported for the node. *)
Theorem registration_lookup (m : gmap string Node) (pos : Span) (q : Literal)
    (value : Node) (before : list (list string)) (set : list string)
    (after : list (list string)) :
  getFirst symbols (literal_value q)
    = Some (Static (Sets (before ++ set :: after))) →
  m !! valueText (QualifiedValueNode pos q value) = None →
  forallb (λ other, negb (has other (valueText (QualifiedValueNode pos q value))))
          before = true →
  has set (valueText (QualifiedValueNode pos q value)) = true →
  emitted' m (QualifiedValueNode pos q value) = []
  ∧ ∀ k, mutualAfter' m (QualifiedValueNode pos q value) !! k
         = if has set k
              && negb (String.eqb k (valueText (QualifiedValueNode pos q value)))
           then Some (QualifiedValueNode pos q value)
           else m !! k.
Proof.
  intros Hq Hm Hbefore Hset.
  pose proof (visit_sets m pos q value _ Hq) as H.
  rewrite Hm, (scanSets_first before set after _ _ m Hbefore Hset) in H.
  simpl in H. injection H as -> ->.
  split; [reflexivity|]. intros k. apply register_lookup.
Qed.

End RuleDetails.

Section ValueRules.

Variable typeText : ValueType.t → string.
Variable sortValues : list string.
Variable symbols : SymbolTable.

Local Abbreviation emittedAll' := (emittedAll typeText sortValues symbols).
Local Abbreviation emitted' := (emitted typeText sortValues symbols).
Local Abbreviation mutualAfter' := (mutualAfter typeText sortValues symbols).

(** X9. A value that passes both as date-like and as number-like is a range
    with one boundary of each kind, and such a range is reported by the range
    rule when the walk visits it: no value satisfies a Date qualifier and a
    Number qualifier alike without a diagnostic. *)
Theorem date_and_number_like_is_mismatched (m : gmap string Node) (v : Node) :
  isNumberOrDateLike v NodeType.Date = true →
  isNumberOrDateLike v NodeType.Number = true →
  mismatched v = true ∧ emitted' m v = [mkError v rangeMessage None].
Proof.
  intros Hdate Hnumber.
  assert (Hmis : mismatched v = true).
  { destruct v; try discriminate.
    - unfold isNumberOrDateLike in *. simpl in *.
      destruct (nodeType v); discriminate.
    - unfold isNumberOrDateLike in *. simpl in *.
      destruct open as [o|], close as [c|]; simpl in *; try discriminate.
      + destruct (nodeType o), (nodeType c); try discriminate; reflexivity.
      + destruct (nodeType o); discriminate.
      + destruct (nodeType c); discriminate. }
  split; [exact Hmis|].
  destruct v; try discriminate.
  rewrite emitted_range. by rewrite Hmis.
Qed.

(** X10. A variable as the value of a scalar qualifier: the qualified value
    and all its nodes go through without any diagnostic exactly when the
    variable is bound to a user symbol of the very type the qualifier
    expects. *)
Theorem variable_value_accepted_iff (m : gmap string Node) (pos : Span)
    (q : Literal) (var : VariableName) (type : ValueType.t) :
  getFirst symbols (literal_value q) = Some (Static (Scalar type)) →
  emittedAll' m (walk (QualifiedValueNode pos q (VariableNameNode var))) = []
  ↔ ∃ value, getFirst symbols (variable_value var) = Some (User type value).
Proof.
  intros Hq.
  change (walk (QualifiedValueNode pos q (VariableNameNode var)))
    with [QualifiedValueNode pos q (VariableNameNode var); LiteralNode q;
          VariableNameNode var].
  unfold emittedAll. simpl foldl.
  unfold visitQuery at 3. unfold checkQualifiedValue. simpl. rewrite Hq.
  destruct (getFirst symbols (variable_value var)) as [[s|vtype value]|] eqn:Hvar.
  - simpl. unfold visitQuery, checkVariableName. simpl. rewrite Hvar. simpl.
    split; [discriminate | intros [? ?]; discriminate].
  - destruct (bool_decide (vtype = type)) eqn:Htype; simpl;
      unfold visitQuery, checkVariableName; simpl; rewrite Hvar; simpl.
    + apply bool_decide_eq_true in Htype. subst. split; [eauto | reflexivity].
    + apply bool_decide_eq_false in Htype.
      split; [discriminate | intros [? [= E]]; by destruct Htype].
  - simpl. unfold visitQuery, checkVariableName. simpl. rewrite Hvar. simpl.
    split; [discriminate | intros [? ?]; discriminate].
Qed.

(** X11. Only Date and Number are checked against the shape of the value: a
    static qualifier of any other scalar type accepts every value that is not
    a variable name, and leaves [mutual] alone. *)
Theorem other_scalar_accepts_any_value (m : gmap string Node) (pos : Span)
    (q : Literal) (v : Node) (type : ValueType.t) :
  getFirst symbols (literal_value q) = Some (Static (Scalar type)) →
  type ≠ ValueType.Date → type ≠ ValueType.Number →
  nodeType v ≠ NodeType.VariableName →
  emitted' m (QualifiedValueNode pos q v) = []
  ∧ mutualAfter' m (QualifiedValueNode pos q v) = m.
Proof.
  intros Hq Hdate Hnumber Hv.
  unfold emitted, mutualAfter, visitQuery, checkQualifiedValue. simpl. rewrite Hq.
  rewrite (bool_decide_eq_false_2 _ Hdate), (bool_decide_eq_false_2 _ Hnumber).
  by destruct v.
Qed.

(** X12. [mutual] matters to qualified values with value sets only: what
    the visit of any other node reports does not depend on the map, and the
    map is handed on unchanged.  So in a query without such a qualified value
    every node is judged on its own. *)
Theorem other_nodes_ignore_mutual (n : Node) :
  usesMutual symbols n = false →
  (∀ m m', emitted' m n = emitted' m' n)
  ∧ (∀ m, mutualAfter' m n = m)
  ∧ ∀ query,
      neutral symbols query = true →
      validateQuery typeText sortValues query [] symbols
      = concat (map (emitted' ∅) (walk query)).
Proof.
  intros Hn.
  assert (Hfree : ∀ x, usesMutual symbols x = false →
                       ∀ m m', emitted' m x = emitted' m' x).
  { intros x Hx m m'. unfold emitted, visitQuery.
    destruct x; try reflexivity.
    - unfold checkQualifiedValue. simpl. unfold usesMutual in Hx.
      destruct (getFirst symbols (literal_value qualifier)) as [[[?|?]|? ?]|];
        try discriminate; try reflexivity.
      destruct x; simpl; try reflexivity;
        repeat (case_match; simpl; try reflexivity).
    - unfold checkRange. simpl. repeat (case_match; simpl; try reflexivity).
    - unfold checkSortBy. simpl. repeat (case_match; simpl; try reflexivity).
    - unfold checkVariableName. simpl.
      repeat (case_match; simpl; try reflexivity). }
  split; [by apply Hfree|]. split.
  { intros m. by destruct (visitQuery_neutral typeText sortValues symbols m n Hn). }
  intros query Hquery. rewrite validateQuery_emitted. simpl app.
  unfold neutral in Hquery.
  generalize (∅ : gmap string Node) at 1 as m.
  induction (walk query) as [|x l IH]; intros m; [reflexivity|].
  simpl in Hquery. apply andb_true_iff in Hquery as [Hx Hl].
  apply negb_true_iff in Hx.
  rewrite emittedAll_cons. simpl.
  destruct (visitQuery_neutral typeText sortValues symbols m x Hx) as [-> _].
  by rewrite (Hfree x Hx m ∅), (IH Hl).
Qed.

Lemma append_assoc (a b c : string) : (a +:+ b) +:+ c = a +:+ b +:+ c.
Proof.
  induction a as [|x a IH]; [reflexivity|].
  change (String x ((a +:+ b) +:+ c) = String x (a +:+ b +:+ c)).
  by rewrite IH.
Qed.

Lemma join_app (sep : string) (l1 l2 : list string) :
  l1 ≠ [] → l2 ≠ [] →
  join sep (l1 ++ l2) = join sep l1 +:+ sep +:+ join sep l2.
Proof.
  intros H1 H2. induction l1 as [|x l1 IH]; [done|].
  destruct l1 as [|y l1].
  - simpl. by destruct l2.
  - change (join sep ((x :: y :: l1) ++ l2))
      with (x +:+ sep +:+ join sep ((y :: l1) ++ l2)).
    rewrite IH by done.
    change (join sep (x :: y :: l1)) with (x +:+ sep +:+ join sep (y :: l1)).
    by rewrite !append_assoc.
Qed.

(** X13. The hint of "Unknown value" names every value of every set in
    order: with no set empty, joining the joined sets is joining all their
    values, separated by ", " throughout. *)
Theorem unknown_value_message_lists_all (sets : list (list string)) :
  forallb (λ set, negb (bool_decide (set = []))) sets = true →
  unknownValueMessage sets
  = "Unknown value, must be one of: " +:+ join ", " (concat sets).
Proof.
  intros Hsets. unfold unknownValueMessage. f_equal.
  induction sets as [|set sets IH]; [reflexivity|].
  simpl in Hsets. apply andb_true_iff in Hsets as [Hset Hrest].
  apply negb_true_iff, bool_decide_eq_false in Hset.
  specialize (IH Hrest).
  destruct sets as [|next sets]; [simpl; by rewrite app_nil_r|].
  change (join ", " (map (join ", ") (set :: next :: sets)))
    with (join ", " set +:+ ", " +:+ join ", " (map (join ", ") (next :: sets))).
  rewrite IH. simpl concat. rewrite (join_app ", " set); [reflexivity | done |].
  simpl in Hrest. apply andb_true_iff in Hrest as [Hnext _].
  apply negb_true_iff, bool_decide_eq_false in Hnext.
  destruct next; [done | discriminate].
Qed.

End ValueRules.

(** ** Further properties of the extractor *)

Section ExtractorDetails.

Variable print : Node → string → (string → option string) → string.
Variable typeText : ValueType.t → string.

Lemma splitAtFirst_before (c : ascii) (s before after : string) :
  splitAtFirst c s = Some (before, after) →
  indexOf before c = (-1)%Z ∧ s = before +:+ String c after.
Proof.
  revert before. induction s as [|x rest IH]; intros before; simpl; [discriminate|].
  destruct (Ascii.eqb_spec x c) as [->|Hx].
  - intros [= <- <-]. by split.
  - destruct (splitAtFirst c rest) as [[b a]|]; [|discriminate].
    intros [= <- <-]. destruct (IH b eq_refl) as [Hb ->].
    split; [|reflexivity]. simpl.
    destruct (Ascii.eqb_spec x c); [done|]. by rewrite Hb.
Qed.

Lemma splitRepo_inv (s : string) (r : RepoInfo) :
  In r (splitRepo s) →
  s = owner r +:+ "/" +:+ repo r
  ∧ owner r ≠ "" ∧ indexOf (owner r) "/" = (-1)%Z.
Proof.
  rewrite splitRepo_emitSpec. unfold emitSpec.
  destruct (splitAtFirst "/" s) as [[before after]|] eqn:Hsplit; [|intros []].
  destruct (splitAtFirst_before _ _ _ _ Hsplit) as [Hbefore ->].
  destruct (Nat.ltb_spec 0 (String.length before)) as [Hpos|_]; [|intros []].
  intros [<- | []]. simpl. repeat split; [|exact Hbefore].
  intros ->. simpl in Hpos. lia.
Qed.

(** X14. Every record the generator yields comes from one of the collected
    strings by cutting out one '/': its owner is not empty and holds no '/',
    and owner, '/' and repo put together again are that string.  A string
    with several separators is cut at the first only. *)
Theorem repo_records_rejoin (doc : QueryDocumentNode) (project : Project) :
  Forall (λ r, owner r ≠ ""
               ∧ indexOf (owner r) "/" = (-1)%Z
               ∧ In (Text (owner r +:+ "/" +:+ repo r))
                    (repoStrings print typeText doc project))
         (getRepoInfos print typeText doc project).
Proof.
  unfold getRepoInfos. fold (repoStrings print typeText doc project).
  apply Forall_forall. intros r Hr.
  apply list_elem_of_In, in_concat in Hr as (rs & Hrs & Hr).
  apply in_map_iff in Hrs as (v & <- & Hv).
  destruct v as [s|sets]; [|destruct Hr].
  destruct (splitRepo_inv s r Hr) as (Heq & Howner & Hslash).
  repeat split; [exact Howner | exact Hslash | by rewrite <- Heq].
Qed.

Lemma repoStrings_concat (doc : QueryDocumentNode) (project : Project) :
  repoStrings print typeText doc project
  = concat (map (visitRepo print typeText doc project []) (walkDocument doc)).
Proof. unfold repoStrings. by rewrite foldl_visitRepo_frame. Qed.

Lemma visitRepo_cases (doc : QueryDocumentNode) (project : Project) (n : Node)
    (v : RepoValue) :
  In v (visitRepo print typeText doc project [] n) →
  truthyValue v = true
  ∧ ∃ pos q value,
      n = QualifiedValueNode pos q value ∧ literal_value q = "repo"
      ∧ match value with
        | VariableNameNode var =>
            ∃ symbol, getFirst (project_symbols project) (variable_value var)
                      = Some symbol
                      ∧ v = symbolValue typeText symbol
        | _ => v = Text (print value (doc_text doc) (λ _, None))
        end.
Proof.
  unfold visitRepo. destruct n; try (intros []).
  destruct (String.eqb_spec (literal_value qualifier) "repo") as [Hq|_];
    [|intros []].
  simpl negb. cbv iota.
  assert (Hpush : ∀ t, In v (if truthyValue t then [] ++ [t] else []) →
                       truthyValue v = true ∧ t = v).
  { intros t. destruct (truthyValue t) eqn:Ht; [|intros []].
    intros [<- | []]. by split. }
  destruct n;
    try (intros Hv; destruct (Hpush _ Hv) as (Htrue & Htv);
         split; [exact Htrue|]; eexists _, _, _;
         split; [reflexivity|]; split; [exact Hq | exact (eq_sym Htv)]).
  destruct (getFirst (project_symbols project) (variable_value var))
    as [symbol|] eqn:Hvar; [|intros []].
  intros Hv. destruct (Hpush _ Hv) as (Htrue & Htv).
  split; [exact Htrue|]. eexists _, _, _.
  split; [reflexivity|]. split; [exact Hq|].
  simpl. exists symbol. by rewrite Hvar.
Qed.

(** X15. Where the collected values come from: each is truthy (not the empty
    string) and belongs to a qualified value of the document whose qualifier
    reads "repo": it is the [value] of the symbol that the variable in value
    position names, whatever the kind of that symbol (the literal of a user
    variable, the type or the value sets of a static symbol), or else the
    printed value.  There are no more records than collected values, and no
    more of these than such qualified values. *)
Theorem repo_strings_provenance (doc : QueryDocumentNode) (project : Project) :
  Forall (λ v, truthyValue v = true
               ∧ ∃ pos q value,
                   In (QualifiedValueNode pos q value) (walkDocument doc)
                   ∧ literal_value q = "repo"
                   ∧ match value with
                     | VariableNameNode var =>
                         ∃ symbol,
                           getFirst (project_symbols project) (variable_value var)
                           = Some symbol
                           ∧ v = symbolValue typeText symbol
                     | _ => v = Text (print value (doc_text doc) (λ _, None))
                     end)
         (repoStrings print typeText doc project)
  ∧ length (getRepoInfos print typeText doc project)
    ≤ length (repoStrings print typeText doc project)
  ∧ length (repoStrings print typeText doc project)
    ≤ length (List.filter isRepoQualified (walkDocument doc)).
Proof.
  split; [|split].
  - rewrite repoStrings_concat. apply Forall_forall. intros v Hv.
    apply list_elem_of_In, in_concat in Hv as (vs & Hvs & Hv).
    apply in_map_iff in Hvs as (n & <- & Hn).
    destruct (visitRepo_cases doc project n v Hv)
      as (Htrue & pos & q & value & -> & Hq & Hvalue).
    split; [exact Htrue|]. by exists pos, q, value.
  - unfold getRepoInfos. fold (repoStrings print typeText doc project).
    induction (repoStrings print typeText doc project) as [|v l IH]; [reflexivity|].
    simpl. rewrite length_app.
    assert (length (splitValue v) ≤ 1); [|lia].
    destruct v; simpl; [|lia].
    unfold splitRepo. destruct (_ >? _)%Z; simpl; lia.
  - rewrite repoStrings_concat.
    induction (walkDocument doc) as [|n l IH]; [reflexivity|].
    simpl. rewrite length_app.
    assert (length (visitRepo print typeText doc project [] n)
            ≤ if isRepoQualified n then 1 else 0) as Hn.
    { unfold visitRepo, isRepoQualified. destruct n; try reflexivity.
      destruct (String.eqb (literal_value qualifier) "repo"); [|reflexivity].
      simpl negb. cbv iota.
      destruct (match n with VariableNameNode _ => _ | _ => _ end) as [t|];
        [|simpl; lia].
      destruct (truthyValue t); simpl; lia. }
    destruct (isRepoQualified n); simpl; lia.
Qed.

(** X16. The records of a document are those of its top-level nodes, in
    order: extracting from a concatenation is concatenating the
    extractions (over the same source text). *)
Theorem getRepoInfos_concatenation (l1 l2 : list Node) (text : string)
    (project : Project) :
  getRepoInfos print typeText (mkDoc (l1 ++ l2) text) project
  = getRepoInfos print typeText (mkDoc l1 text) project
      ++ getRepoInfos print typeText (mkDoc l2 text) project.
Proof.
  unfold getRepoInfos. rewrite !foldl_visitRepo_frame. simpl app.
  unfold walkDocument. simpl doc_nodes.
  rewrite map_app, concat_app, map_app, concat_app, map_app, concat_app.
  f_equal.
Qed.

(** X17. The symbol table is consulted for the variables that stand as the
    value of a "repo" qualifier and for nothing else: two projects that
    resolve those variables alike yield the same records. *)
Theorem getRepoInfos_reads_repo_variables_only (doc : QueryDocumentNode)
    (project1 project2 : Project) :
  (∀ pos q var,
      In (QualifiedValueNode pos q (VariableNameNode var)) (walkDocument doc) →
      literal_value q = "repo" →
      symbolValue typeText
        <$> getFirst (project_symbols project1) (variable_value var)
      = symbolValue typeText
          <$> getFirst (project_symbols project2) (variable_value var)) →
  getRepoInfos print typeText doc project1 = getRepoInfos print typeText doc project2.
Proof.
  intros Hagree. unfold getRepoInfos. rewrite !foldl_visitRepo_frame. simpl app.
  f_equal. f_equal.
  induction (walkDocument doc) as [|n l IH]; [reflexivity|].
  simpl. rewrite IH by (intros; eapply Hagree; [right|]; eassumption).
  f_equal. unfold visitRepo. destruct n; try reflexivity.
  destruct (String.eqb_spec (literal_value qualifier) "repo") as [Hq|_];
    [|reflexivity].
  destruct n; try reflexivity.
  simpl negb. cbv iota.
  by rewrite (Hagree pos qualifier var (or_introl eq_refl) Hq).
Qed.

End ExtractorDetails.

(** ** Instances of the further properties *)


(** X6, witness: [is:foo]. *)
Lemma unknown_value_witness :
  emitted Examples.typeNames Examples.sortFields Examples.table ∅ MoreExamples.isFoo
  = [mkError (LiteralNode (Examples.literal 3 6 "foo"))
             "Unknown value, must be one of: pr, issue, open, closed" None].
Proof.
  refine (proj1 (unknown_value_rejected
                   Examples.typeNames Examples.sortFields Examples.table ∅
                   (mkSpan 0 6) (Examples.literal 0 2 "is")
                   (LiteralNode (Examples.literal 3 6 "foo"))
                   [["pr"; "issue"]; ["open"; "closed"]] _ _ _));
    reflexivity.
Defined.

(** X7, witness: [is:open state:closed]: the value of [state] conflicts with
    the value of [is]. *)
Lemma conflict_across_qualifiers_witness :
  emittedAll Examples.typeNames Examples.sortFields MoreExamples.crossTable ∅
             (walk MoreExamples.isOpen ++ walk MoreExamples.stateClosed)
  = [mkError MoreExamples.stateClosed conflictMessage (Some MoreExamples.isOpen)].
Proof.
  refine (conflict_across_qualifiers
            Examples.typeNames Examples.sortFields MoreExamples.crossTable
            (mkSpan 0 7) (mkSpan 8 20)
            (Examples.literal 0 2 "is") (Examples.literal 8 13 "state")
            (Examples.literal 3 7 "open") (Examples.literal 14 20 "closed")
            [["pr"; "issue"]] ["open"; "closed"] []
            [["open"; "closed"; "merged"]] _ _ _ _ _ _);
    try reflexivity.
  discriminate.
Defined.

(** X8, witness: after [is:pr], the text [issue] is mapped to that node. *)
Lemma registration_witness :
  mutualAfter Examples.typeNames Examples.sortFields Examples.table ∅ Examples.isPr
    !! "issue"
  = Some Examples.isPr.
Proof.
  refine (proj2 (registration_lookup
                   Examples.typeNames Examples.sortFields Examples.table ∅
                   (mkSpan 0 5) (Examples.literal 0 2 "is")
                   (LiteralNode (Examples.literal 3 5 "pr"))
                   [] ["pr"; "issue"] [["open"; "closed"]] _ _ _ _) "issue");
    reflexivity.
Defined.

(** X9, witness: a range from a date to a number. *)
Lemma date_and_number_like_witness :
  emitted Examples.typeNames Examples.sortFields Examples.table ∅
          MoreExamples.dateToNumber
  = [mkError MoreExamples.dateToNumber rangeMessage None].
Proof.
  refine (proj2 (date_and_number_like_is_mismatched
                   Examples.typeNames Examples.sortFields Examples.table ∅
                   MoreExamples.dateToNumber _ _)); reflexivity.
Defined.

(** X10, witness: [created:$start], the variable bound to a date. *)
Lemma variable_value_accepted_witness :
  emittedAll Examples.typeNames Examples.sortFields Examples.table ∅
    (walk (QualifiedValueNode (mkSpan 0 14) (Examples.literal 0 7 "created")
                              Examples.start))
  = [].
Proof.
  refine (proj2 (variable_value_accepted_iff
                   Examples.typeNames Examples.sortFields Examples.table ∅
                   (mkSpan 0 14) (Examples.literal 0 7 "created")
                   (Examples.variable 8 14 "$start") ValueType.Date _) _).
  - reflexivity.
  - by exists "2020-01-01".
Defined.

(** X11, witness: [author:bug], a qualifier that expects plain text. *)
Lemma other_scalar_witness :
  emitted Examples.typeNames Examples.sortFields MoreExamples.crossTable ∅
          MoreExamples.authorBug
  = [].
Proof.
  refine (proj1 (other_scalar_accepts_any_value
                   Examples.typeNames Examples.sortFields MoreExamples.crossTable ∅
                   (mkSpan 0 10) (Examples.literal 0 6 "author")
                   (LiteralNode (Examples.literal 7 10 "bug")) ValueType.Text
                   _ _ _ _)); (reflexivity || discriminate).
Defined.

(** X12, witness: [created:bug] holds no qualifier with value sets. *)
Lemma other_nodes_ignore_mutual_witness :
  validateQuery Examples.typeNames Examples.sortFields
                (QueryNode (mkSpan 0 11) [Examples.createdBug]) [] Examples.table
  = concat (map (emitted Examples.typeNames Examples.sortFields Examples.table ∅)
                (walk (QueryNode (mkSpan 0 11) [Examples.createdBug]))).
Proof.
  refine (proj2 (proj2 (other_nodes_ignore_mutual
                          Examples.typeNames Examples.sortFields Examples.table
                          Examples.createdBug _))
                (QueryNode (mkSpan 0 11) [Examples.createdBug]) _);
    reflexivity.
Defined.

(** X13, witness: the sets of [is]. *)
Lemma unknown_value_message_witness :
  unknownValueMessage [["pr"; "issue"]; ["open"; "closed"]]
  = "Unknown value, must be one of: pr, issue, open, closed".
Proof.
  refine (unknown_value_message_lists_all [["pr"; "issue"]; ["open"; "closed"]] _).
  reflexivity.
Defined.

(** X17, witness: [repo:acme/widgets] names no variable, so the table does
    not matter. *)
Lemma getRepoInfos_table_witness :
  getRepoInfos Examples.slice Examples.typeNames MoreExamples.acmeWidgets (mkProject Examples.table)
  = getRepoInfos Examples.slice Examples.typeNames MoreExamples.acmeWidgets (mkProject (λ _, None)).
Proof.
  refine (getRepoInfos_reads_repo_variables_only
            Examples.slice Examples.typeNames MoreExamples.acmeWidgets
            (mkProject Examples.table) (mkProject (λ _, None)) _).
  intros pos q var Hin _. simpl in Hin.
  repeat (destruct Hin as [Hin | Hin]; [discriminate|]). destruct Hin.
Defined.



(** The [value] of a static symbol is collected like any other: the array of
    value sets yields no record, and a type yields its name. *)
Lemma static_symbol_value_collected :
  repoStrings Examples.slice Examples.typeNames
              (MoreExamples.repoOfStatic "is") Examples.project
  = [SetArray [["pr"; "issue"]; ["open"; "closed"]]]
  ∧ getRepoInfos Examples.slice Examples.typeNames
                 (MoreExamples.repoOfStatic "is") Examples.project = []
  ∧ repoStrings Examples.slice Examples.typeNames
                (MoreExamples.repoOfStatic "created") Examples.project
    = [Text "date"].
Proof. split; [reflexivity | split; reflexivity]. Qed.
